(** * pystiche: the multi-layer encoder and the cycle batch samplers

    A shallow embedding of [pystiche/enc/multi_layer_encoder.py] and
    [pystiche/image/data/sampler.py].

    - The ordered stage container ([nn.Module._modules], an ordered dict)
      is a list of (name, module) pairs.
    - The persistent cache ([self._cache], a dict keyed by
      (layer name, TensorKey)) is a [gmap]; [registered_layers] and the
      [set(...)] values built inside the methods are [gset]s, iterated in
      the order of [elements].
    - Exceptions are values of [error]; a method is a function from the
      machine state (the encoder and the log of stage calls) to the new
      state and either a value or a raised error. *)

From stdpp Require Import gmap strings list fin_maps sorting.

(** ** The order used by [sorted(..., key=...)] *)

Definition key_le (x y : nat * string) : Prop := x.1 ≤ y.1.

#[global] Instance key_le_dec : RelDecision key_le.
Proof. intros x y. unfold key_le. apply _. Defined.

#[global] Instance key_le_total : Total key_le.
Proof. intros x y. unfold key_le. lia. Qed.

#[global] Instance key_le_trans : Transitive key_le.
Proof. intros x y z. unfold key_le. lia. Qed.

(** [list.index(x)]: the position of the first occurrence. *)
Fixpoint list_index (x : string) (l : list string) : option nat :=
  match l with
  | [] => None
  | y :: l' => if decide (x = y) then Some 0 else S <$> list_index x l'
  end.

(** ** sampler.py

    A [Sized] data source is used through [len] only and is modelled by its
    length.  A generator is a state and a [next] function on it. *)

Module sampler.

Inductive step (S A : Type) : Type :=
| Yield (value : A) (state : S)
| StopIteration
| RuntimeError.   (* StopIteration raised inside a generator body *)
Arguments Yield {S A} value state.
Arguments StopIteration {S A}.
Arguments RuntimeError {S A}.

Definition Sized : Type := nat.
Definition len (data_source : Sized) : nat := data_source.

(** [range(n)] runs [n] times for a positive [n] and never otherwise. *)
Definition range_len (n : Z) : nat := Z.to_nat n.

(** [itertools.cycle(range(size))]; the state is the position in the
    range.  Over an empty range the first [next] already stops. *)
Definition cycle_next (size : nat) (pos : nat) : step nat nat :=
  if decide (size = 0) then StopIteration
  else Yield pos (if decide (S pos < size) then S pos else 0).

(** [tuple(nextn(iterator, n))] *)
Fixpoint nextn (size : nat) (n : nat) (pos : nat) : step nat (list nat) :=
  match n with
  | 0 => Yield [] pos
  | S n' =>
      match cycle_next size pos with
      | Yield i pos' =>
          match nextn size n' pos' with
          | Yield rest pos'' => Yield (i :: rest) pos''
          | _ => RuntimeError
          end
      | _ => RuntimeError
      end
  end.

Record InfiniteCycleBatchSampler : Type := {
  data_source : Sized;
  batch_size : Z;
}.

(** [__init__]: [Sampler.__init__(data_source)] of torch does nothing, the
    two attributes are stored.  [None] stands for an exception raised by
    the constructor. *)
Definition InfiniteCycleBatchSampler_init (data_source : Sized) (batch_size : Z)
  : option InfiniteCycleBatchSampler :=
  Some {| data_source := data_source; batch_size := batch_size |}.

(** [__iter__]: a fresh cycle at position 0; each [next] yields one batch. *)
Definition Infinite_iter (self : InfiniteCycleBatchSampler) : nat := 0.

Definition Infinite_next (self : InfiniteCycleBatchSampler) (pos : nat)
  : step nat (list nat) :=
  nextn (len (data_source self)) (range_len (batch_size self)) pos.

Definition Infinite_len (self : InfiniteCycleBatchSampler) : Z := (-1)%Z.

Record FiniteCycleBatchSampler : Type := {
  base : InfiniteCycleBatchSampler;
  num_batches : Z;
}.

Definition FiniteCycleBatchSampler_init (data_source : Sized) (num_batches batch_size : Z)
  : option FiniteCycleBatchSampler :=
  base ← InfiniteCycleBatchSampler_init data_source batch_size;
  Some {| base := base; num_batches := num_batches |}.

(** The state of the finite generator: the rounds of its [for] loop still
    to run and the state of the inner infinite generator. *)
Definition Finite_iter (self : FiniteCycleBatchSampler) : nat * nat :=
  (range_len (num_batches self), Infinite_iter (base self)).

Definition Finite_next (self : FiniteCycleBatchSampler) (st : nat * nat)
  : step (nat * nat) (list nat) :=
  match st.1 with
  | 0 => StopIteration
  | S rounds =>
      match Infinite_next (base self) st.2 with
      | Yield batch pos => Yield batch (rounds, pos)
      | _ => RuntimeError
      end
  end.

Definition Finite_len (self : FiniteCycleBatchSampler) : Z := num_batches self.

(** How a run of at most [fuel] calls of [next] ends. *)
Inductive status (S : Type) : Type :=
| Exhausted          (* the iterator raised StopIteration: the sequence ended *)
| Failed             (* the iterator raised an error *)
| Live (state : S).  (* all [fuel] batches were produced *)
Arguments Exhausted {S}.
Arguments Failed {S}.
Arguments Live {S} state.

Fixpoint pull {S A} (next : S → step S A) (fuel : nat) (st : S) : list A * status S :=
  match fuel with
  | 0 => ([], Live st)
  | S fuel' =>
      match next st with
      | Yield a st' => let '(rest, final) := pull next fuel' st' in (a :: rest, final)
      | StopIteration => ([], Exhausted)
      | RuntimeError => ([], Failed)
      end
  end.

(** The cyclic sequence 0, 1, ..., size-1, 0, 1, ... *)
Definition cyclic (size : nat) (k : nat) : nat := k mod size.

(** [b] consecutive indices of the cyclic sequence, from its place [k]. *)
Definition cyclic_batch (size b k : nat) : list nat :=
  (λ j, cyclic size (k + j)) <$> seq 0 b.

(** The first [n] batches of [b] indices each: batch [i] starts at place
    [i * b] of the cyclic sequence. *)
Definition cyclic_batches (size b n : nat) : list (list nat) :=
  (λ i, cyclic_batch size b (i * b)) <$> seq 0 n.

End sampler.

Section encoder.
Set Default Proof Using "Type".
Context {Tensor Key Module Exn : Type} `{Countable Key}.

(** [pystiche.TensorKey], calling a stage, and [guides.propagate_guide]
    belong to collaborators of the encoder. *)
Context (TensorKey : Tensor → Key).
Context (call : Module → Tensor → Exn + Tensor).
Context (guides_propagate_guide :
           Module → Tensor → string → bool → Exn + Tensor).

(** ** Exceptions *)

Inductive error : Type :=
| UnknownLayerError (layer : string)
    (* ValueError("Layer ... is not part of the encoder.") *)
| NotInList (x : string)          (* ValueError of list.index *)
| IndexError                      (* [-1] of an empty list *)
| KeyError (layer : string)       (* missing dict entry *)
| Raised (e : Exn).               (* raised by a stage or the propagator *)

Inductive result (A : Type) : Type :=
| Ok (a : A)
| Raise (e : error).
Global Arguments Ok {A} a.
Global Arguments Raise {A} e.

Global Instance result_ret : MRet result := λ A a, Ok a.
Global Instance result_bind : MBind result := λ A B f m,
  match m with
  | Ok a => f a
  | Raise e => Raise e
  end.

Definition of_option {A} (o : option A) (e : error) : result A :=
  match o with
  | Some a => Ok a
  | None => Raise e
  end.

Definition of_collaborator {A} (r : Exn + A) : result A :=
  match r with
  | inl e => Raise (Raised e)
  | inr a => Ok a
  end.

(** ** The encoder object *)

Record MultiLayerEncoder : Type := Build_encoder {
  _modules : list (string * Module);
  registered_layers : gset string;
  _cache : gmap (string * Key) Tensor;
}.

(** [named_children()] of torch walks [_modules] in insertion order; the
    stages are taken to be distinct module objects, none of them [None]. *)
Definition named_children (self : MultiLayerEncoder) : list (string * Module) :=
  _modules self.

Definition children_names (self : MultiLayerEncoder) : list string :=
  (named_children self).*1.

Definition contains (self : MultiLayerEncoder) (name : string) : bool :=
  bool_decide (name ∈ children_names self).

Definition _verify_layer (self : MultiLayerEncoder) (layer : string) : result unit :=
  if contains self layer then Ok tt else Raise (UnknownLayerError layer).

Definition index (names : list string) (layer : string) : result nat :=
  of_option (list_index layer names) (NotInList layer).

Definition extract_deepest_layer (self : MultiLayerEncoder) (layers : list string)
  : result string :=
  mapM (_verify_layer self) layers ;;
  let names := children_names self in
  keyed ← mapM (λ layer, idx ← index names layer; mret (idx, layer))
               (elements (list_to_set layers : gset string));
  of_option (snd <$> last (merge_sort key_le keyed)) IndexError.

Definition named_children_to (self : MultiLayerEncoder) (layer : string)
    (include_last : bool) : result (list (string * Module)) :=
  _verify_layer self layer ;;
  idx ← index (children_names self) layer;
  let idx := if include_last then idx + 1 else idx in
  mret (take idx (named_children self)).

Definition named_children_from (self : MultiLayerEncoder) (layer : string)
    (include_first : bool) : result (list (string * Module)) :=
  _verify_layer self layer ;;
  idx ← index (children_names self) layer;
  let idx := if include_first then idx else idx + 1 in
  mret (drop idx (named_children self)).


(** ** Methods as state transformers

    A method runs on a [machine]: the encoder object and the log of the
    stage names called so far.  State changes made before an exception is
    raised stay, as in Python. *)

Record machine : Type := Machine {
  self : MultiLayerEncoder;
  called : list string;
}.

Definition M (A : Type) : Type := machine → machine * result A.

Global Instance M_ret : MRet M := λ A a st, (st, Ok a).
Global Instance M_bind : MBind M := λ A B f m st,
  match m st with
  | (st', Ok a) => f a st'
  | (st', Raise e) => (st', Raise e)
  end.

Definition lift {A} (r : result A) : M A := λ st, (st, r).

Definition get_self : M MultiLayerEncoder := λ st, (st, Ok (self st)).

Definition set_modules (modules : list (string * Module)) : M unit := λ st,
  (Machine (Build_encoder modules (registered_layers (self st)) (_cache (self st)))
           (called st), Ok tt).

Definition set_registered_layers (layers : gset string) : M unit := λ st,
  (Machine (Build_encoder (_modules (self st)) layers (_cache (self st)))
           (called st), Ok tt).

Definition set_cache (cache : gmap (string * Key) Tensor) : M unit := λ st,
  (Machine (Build_encoder (_modules (self st)) (registered_layers (self st)) cache)
           (called st), Ok tt).

(** [module(input)]: the call is logged, then the stage runs. *)
Definition call_module (name : string) (module : Module) (input : Tensor) : M Tensor :=
  λ st, (Machine (self st) (called st ++ [name]), of_collaborator (call module input)).

(** [storage.keys()] *)
Definition keys (storage : gmap (string * Key) Tensor) : list (string * Key) :=
  (map_to_list storage).*1.

(** [storage[(name, input_key)]] *)
Definition getitem (storage : gmap (string * Key) Tensor) (name : string)
    (input_key : Key) : result Tensor :=
  of_option (storage !! (name, input_key)) (KeyError name).

(** The loop of [forward] over [named_children_to(deepest_layer, True)]. *)
Fixpoint forward_loop (children : list (string * Module)) (input_key : Key)
    (input : Tensor) (storage : gmap (string * Key) Tensor)
  : M (gmap (string * Key) Tensor) :=
  match children with
  | [] => mret storage
  | (name, module) :: rest =>
      out ← call_module name module input;
      forward_loop rest input_key out (<[(name, input_key) := out]> storage)
  end.

Definition stored_layers_of (storage : gmap (string * Key) Tensor) (input_key : Key)
  : list string :=
  (filter (λ nk, nk.2 = input_key) (keys storage)).*1.

Definition forward (input : Tensor) (layers : list string) (store : bool)
  : M (list Tensor) :=
  this ← get_self;
  let storage := _cache this in
  let input_key := TensorKey input in
  let stored_layers := stored_layers_of storage input_key in
  let diff_layers : gset string := list_to_set layers ∖ list_to_set stored_layers in
  storage ←
    (if bool_decide (diff_layers ≠ ∅) then
       deepest_layer ← lift (extract_deepest_layer this (elements diff_layers));
       children ← lift (named_children_to this deepest_layer true);
       storage ← forward_loop children input_key input storage;
       (if store then set_cache (storage ∪ _cache this) else mret tt) ;;
       mret storage
     else mret storage);
  lift (mapM (λ name, getitem storage name input_key) layers).

Definition extract_single_layer_encoder (layer : string) : M string :=
  this ← get_self;
  lift (_verify_layer this layer) ;;
  set_registered_layers ({[layer]} ∪ registered_layers this) ;;
  mret layer.

(** [dict(pairs)]: a later pair overrides an earlier one. *)
Definition dict {K V} `{Countable K} (pairs : list (K * V)) : gmap K V :=
  foldl (λ d kv, <[kv.1 := kv.2]> d) ∅ pairs.

Definition encode (input : Tensor) : M unit :=
  this ← get_self;
  if bool_decide (registered_layers this = ∅) then mret tt
  else
    let key := TensorKey input in
    let layers := elements (registered_layers this) in
    let keys := (λ layer, (layer, key)) <$> layers in
    encs ← forward input layers true;
    set_cache (dict (zip keys encs)).

Definition clear_cache : M unit := set_cache ∅.

(** [del self._modules[name]] *)
Definition del_module (name : string) : M unit :=
  this ← get_self;
  if contains this name
  then set_modules (filter (λ nm, nm.1 ≠ name) (_modules this))
  else lift (Raise (KeyError name)).

Definition trim (layers : option (list string)) : M unit :=
  this ← get_self;
  let layers := default (elements (registered_layers this)) layers in
  deepest_layer ← lift (extract_deepest_layer this layers);
  children ← lift (named_children_from this deepest_layer false);
  mapM (λ nm, del_module nm.1) children ;;
  mret tt.

(** The loop of [propagate_guide]. *)
Fixpoint propagate_loop (children : list (string * Module)) (method : string)
    (allow_empty : bool) (guide : Tensor) (guides : gmap string Tensor)
  : result (gmap string Tensor) :=
  match children with
  | [] => mret guides
  | (name, module) :: rest =>
      out ← of_collaborator (guides_propagate_guide module guide method allow_empty);
      propagate_loop rest method allow_empty out (<[name := out]> guides)
  end.

Definition propagate_guide (self : MultiLayerEncoder) (guide : Tensor)
    (layers : list string) (method : string) (allow_empty : bool)
  : result (list Tensor) :=
  deepest_layer ← extract_deepest_layer self layers;
  children ← named_children_to self deepest_layer true;
  guides ← propagate_loop children method allow_empty guide ∅;
  mapM (λ name, of_option (guides !! name) (KeyError name)) layers.

(** ** Notions used to state the properties

    These follow the words of the specification: the place of a layer in
    the container's order, the value a tensor takes when it is passed
    through a run of stages, and the activation of a layer. *)

(** The position of a name, 0 for a name that does not occur. *)
Definition position (names : list string) (layer : string) : nat :=
  default 0 (list_index layer names).

(** A tensor passed through [children] one after the other with the stage
    function [f]; the first failure ends the run. *)
Fixpoint chain (f : Module → Tensor → Exn + Tensor) (children : list (string * Module))
    (x : Tensor) : Exn + Tensor :=
  match children with
  | [] => inr x
  | (_, module) :: rest =>
      match f module x with
      | inl e => inl e
      | inr y => chain f rest y
      end
  end.

(** The output of every stage of such a run, in order. *)
Fixpoint chain_outputs (f : Module → Tensor → Exn + Tensor)
    (children : list (string * Module)) (x : Tensor) : Exn + list (string * Tensor) :=
  match children with
  | [] => inr []
  | (name, module) :: rest =>
      match f module x with
      | inl e => inl e
      | inr y =>
          match chain_outputs f rest y with
          | inl e => inl e
          | inr outs => inr ((name, y) :: outs)
          end
      end
  end.

(** The stages entered by such a run: all of them, or those up to the one
    that fails. *)
Fixpoint attempted (f : Module → Tensor → Exn + Tensor)
    (children : list (string * Module)) (x : Tensor) : list string :=
  match children with
  | [] => []
  | (name, module) :: rest =>
      match f module x with
      | inl _ => [name]
      | inr y => name :: attempted f rest y
      end
  end.

(** The stage function of guide propagation. *)
Definition propagator (method : string) (allow_empty : bool)
  : Module → Tensor → Exn + Tensor :=
  λ module guide, guides_propagate_guide module guide method allow_empty.

(** The stages from the first one through [layer]. *)
Definition upto (self : MultiLayerEncoder) (layer : string) : list (string * Module) :=
  take (S (position (children_names self) layer)) (_modules self).

(** The activation of [layer] for [x]: [x] run through the stages up to
    and including [layer]. *)
Definition activation (self : MultiLayerEncoder) (layer : string) (x : Tensor)
  : option Tensor :=
  if decide (layer ∈ children_names self)
  then match chain call (upto self layer) x with
       | inr t => Some t
       | inl _ => None
       end
  else None.

(** The guide of [layer]: [guide] propagated through the same stages. *)
Definition guide_of (self : MultiLayerEncoder) (layer : string) (guide : Tensor)
    (method : string) (allow_empty : bool) : Exn + Tensor :=
  chain (propagator method allow_empty) (upto self layer) guide.

(** The requested layers that are not cached for the key [k]. *)
Definition diff_layers_of (storage : gmap (string * Key) Tensor) (k : Key)
    (layers : list string) : gset string :=
  list_to_set layers ∖ list_to_set (stored_layers_of storage k).

(** The outputs of a run written to the storage under the key [k]. *)
Definition store_outputs (k : Key) (storage : gmap (string * Key) Tensor)
    (outs : list (string * Tensor)) : gmap (string * Key) Tensor :=
  foldl (λ s nt, <[(nt.1, k) := nt.2]> s) storage outs.

(** The machine with another cache, or with more stage calls logged. *)
Definition with_cache (st : machine) (cache : gmap (string * Key) Tensor) : machine :=
  Machine (Build_encoder (_modules (self st)) (registered_layers (self st)) cache)
          (called st).

Definition with_called (st : machine) (names : list string) : machine :=
  Machine (self st) (called st ++ names).

(** The outputs of a guide propagation written to the [guides] dict. *)
Definition store_guides (guides : gmap string Tensor) (outs : list (string * Tensor))
  : gmap string Tensor :=
  foldl (λ s nt, <[nt.1 := nt.2]> s) guides outs.

(** ** The remaining methods *)

(** [__init__]: no registered layer and an empty cache. *)
Definition MultiLayerEncoder_init (modules : list (string * Module)) : machine :=
  Machine (Build_encoder modules ∅ ∅) [].

(** [tuple[0]] *)
Definition first_item {A} (items : list A) : result A :=
  of_option (head items) IndexError.

(** A [SingleLayerEncoder] refers to the encoder it was extracted from,
    here the encoder of the machine, and keeps the name of its layer, the
    value [extract_single_layer_encoder] returns.  Its [forward] is
    [multi_layer_encoder(input_image, layers=(layer,))[0]]. *)
Definition SingleLayerEncoder_forward (layer : string) (input_image : Tensor) : M Tensor :=
  encs ← forward input_image [layer] false;
  lift (first_item encs).

(** [SingleLayerEncoder.propagate_guide]:
    [multi_layer_encoder.propagate_guide(guide, layers=(layer,))[0]],
    with the defaults [method="simple"] and [allow_empty=False]. *)
Definition SingleLayerEncoder_propagate_guide (multi_layer_encoder : MultiLayerEncoder)
    (layer : string) (guide : Tensor) : result Tensor :=
  guides ← propagate_guide multi_layer_encoder guide [layer] "simple" false;
  first_item guides.

(** [__getitem__]: the deprecated spelling of
    [extract_single_layer_encoder]; the deprecation warning is left out. *)
Definition getitem_layer (layer : string) : M string :=
  extract_single_layer_encoder layer.

(** One call of a method that works on the encoder, and the machine it
    leaves, whether it returns or raises. *)
Inductive method_call : Type :=
| Forward (input : Tensor) (layers : list string) (store : bool)
| SingleForward (layer : string) (input_image : Tensor)
| ExtractSingleLayerEncoder (layer : string)
| GetItem (layer : string)
| Encode (input : Tensor)
| ClearCache
| Trim (layers : option (list string)).

Definition exec (c : method_call) (st : machine) : machine :=
  match c with
  | Forward input layers store => (forward input layers store st).1
  | SingleForward layer input_image => (SingleLayerEncoder_forward layer input_image st).1
  | ExtractSingleLayerEncoder layer => (extract_single_layer_encoder layer st).1
  | GetItem layer => (getitem_layer layer st).1
  | Encode input => (encode input st).1
  | ClearCache => (clear_cache st).1
  | Trim layers => (trim layers st).1
  end.

(** The machine after a sequence of calls. *)
Definition run (calls : list method_call) (st : machine) : machine :=
  foldl (λ st c, exec c st) st calls.

(** Every entry of the cache holds the activation, through the stages
    [modules], of its layer for a tensor of its key. *)
Definition coherent (modules : list (string * Module))
    (cache : gmap (string * Key) Tensor) : Prop :=
  ∀ l k t, cache !! (l, k) = Some t →
           ∃ x, TensorKey x = k ∧
                activation (Build_encoder modules ∅ ∅) l x = Some t.

(** A machine that descends from the stages [modules]: its container is
    a front part of them, and its cache holds activations through them. *)
Definition consistent (modules : list (string * Module)) (st : machine) : Prop :=
  NoDup modules.*1 ∧
  (∃ n, _modules (self st) = take n modules) ∧
  coherent modules (_cache (self st)).

(** A call other than [trim] with an explicit collection of layers. *)
Definition keeps_registered (c : method_call) : Prop :=
  match c with
  | Trim (Some _) => False
  | _ => True
  end.

(** ** Basic facts about the error monad and [list.index] *)

Lemma mapM_result_cons {A B} (f : A → result B) (x : A) (l : list A) :
  mapM f (x :: l) = y ← f x; k ← mapM f l; mret (y :: k).
Proof. done. Qed.

Lemma mapM_result_Ok {A B} (f : A → result B) (g : A → B) (l : list A) :
  (∀ x, x ∈ l → f x = Ok (g x)) → mapM f l = Ok (g <$> l).
Proof.
  induction l as [|x l IH]; intros Hf; [done|].
  cbn. rewrite (Hf x) by left. cbn.
  rewrite IH; [done|]. intros y Hy. apply Hf. by right.
Qed.

Lemma mapM_result_Raise {A B} (f : A → result B) (l : list A) (e : error) :
  mapM f l = Raise e → ∃ x, x ∈ l ∧ f x = Raise e.
Proof.
  induction l as [|x l IH]; [done|].
  cbn. destruct (f x) as [b|e'] eqn:Hx; cbn.
  - destruct (mapM f l) as [bs|e'']; cbn; [done|].
    intros [= ->]. destruct IH as (y & Hy & Hfy); [done|].
    exists y. split; [by right|done].
  - intros [= ->]. exists x. split; [by left|done].
Qed.

Lemma mapM_result_Exists {A B} (f : A → result B) (l : list A) :
  (∃ x, x ∈ l ∧ ∃ e, f x = Raise e) → ∃ e, mapM f l = Raise e.
Proof.
  induction l as [|x l IH]; intros (y & Hy & e & He).
  - by apply elem_of_nil in Hy.
  - cbn. destruct (f x) as [b|e'] eqn:Hx; cbn; [|by eexists].
    apply elem_of_cons in Hy as [->|Hy]; [congruence|].
    destruct IH as [e'' ->]; [by eauto|]. by eexists.
Qed.


Lemma list_index_None (x : string) (l : list string) :
  list_index x l = None ↔ x ∉ l.
Proof.
  induction l as [|y l IH]; cbn.
  - split; [intros _; apply not_elem_of_nil|done].
  - rewrite not_elem_of_cons. destruct (decide (x = y)) as [->|Hne].
    + split; [done|]. by intros [? _].
    + rewrite fmap_None, IH. tauto.
Qed.

Lemma list_index_lookup (x : string) (l : list string) (i : nat) :
  list_index x l = Some i → l !! i = Some x.
Proof.
  revert i. induction l as [|y l IH]; intros i; cbn; [done|].
  destruct (decide (x = y)) as [->|Hne].
  - by intros [= <-].
  - destruct (list_index x l) as [j|]; cbn; [|done].
    intros [= <-]. cbn. by apply IH.
Qed.

Lemma list_index_is_Some (x : string) (l : list string) :
  x ∈ l → ∃ i, list_index x l = Some i.
Proof.
  intros Hx. destruct (list_index x l) as [i|] eqn:Hi; [by eexists|].
  by apply list_index_None in Hi.
Qed.

Lemma list_index_inj (x y : string) (l : list string) (i : nat) :
  list_index x l = Some i → list_index y l = Some i → x = y.
Proof.
  intros Hx%list_index_lookup Hy%list_index_lookup. congruence.
Qed.

(** Before position [list_index x l] the name [x] does not occur. *)
Lemma list_index_first (x : string) (l : list string) (i : nat) :
  list_index x l = Some i → x ∉ take i l.
Proof.
  revert i. induction l as [|y l IH]; intros i; cbn; [done|].
  destruct (decide (x = y)) as [->|Hne].
  - intros [= <-]. cbn. apply not_elem_of_nil.
  - destruct (list_index x l) as [j|]; cbn; [|done].
    intros [= <-]. cbn. rewrite not_elem_of_cons. split; [done|]. by apply IH.
Qed.

(** ** The deepest layer *)

Lemma verify_layer_Ok (self : MultiLayerEncoder) (layer : string) :
  layer ∈ children_names self → _verify_layer self layer = Ok tt.
Proof.
  intros Hin. unfold _verify_layer, contains. by rewrite bool_decide_eq_true_2.
Qed.

Lemma verify_layer_Raise (self : MultiLayerEncoder) (layer : string) :
  layer ∉ children_names self →
  _verify_layer self layer = Raise (UnknownLayerError layer).
Proof.
  intros Hin. unfold _verify_layer, contains. by rewrite bool_decide_eq_false_2.
Qed.

Lemma verify_layer_inv (self : MultiLayerEncoder) (layer : string) (e : error) :
  _verify_layer self layer = Raise e →
  e = UnknownLayerError layer ∧ layer ∉ children_names self.
Proof.
  unfold _verify_layer, contains. case_bool_decide; [done|]. by intros [= <-].
Qed.

Lemma verify_all_Ok (self : MultiLayerEncoder) (layers : list string) :
  (∀ n, n ∈ layers → n ∈ children_names self) →
  mapM (_verify_layer self) layers = Ok ((λ _, tt) <$> layers).
Proof.
  intros Hall. apply mapM_result_Ok. intros n Hn. by apply verify_layer_Ok, Hall.
Qed.

Lemma verify_all_Raise (self : MultiLayerEncoder) (layers : list string) :
  (∃ n, n ∈ layers ∧ n ∉ children_names self) →
  ∃ n, n ∈ layers ∧ (n ∉ children_names self) ∧
       mapM (_verify_layer self) layers = Raise (UnknownLayerError n).
Proof.
  intros (n & Hn & Hout).
  destruct (mapM_result_Exists (_verify_layer self) layers) as [e He].
  { exists n. split; [done|]. eexists. by apply verify_layer_Raise. }
  destruct (mapM_result_Raise _ _ _ He) as (m & Hm & Hvm).
  apply verify_layer_inv in Hvm as [-> Hmout]. by exists m.
Qed.

Lemma index_Ok (names : list string) (layer : string) (i : nat) :
  list_index layer names = Some i → index names layer = Ok i.
Proof. unfold index. by intros ->. Qed.

Lemma index_position (names : list string) (layer : string) :
  layer ∈ names → index names layer = Ok (position names layer).
Proof.
  intros [i Hi]%list_index_is_Some. unfold position. rewrite Hi. by apply index_Ok.
Qed.

Lemma position_inj (names : list string) (x y : string) :
  x ∈ names → y ∈ names → position names x = position names y → x = y.
Proof.
  intros [i Hi]%list_index_is_Some [j Hj]%list_index_is_Some.
  unfold position. rewrite Hi, Hj. cbn. intros ->. by eapply list_index_inj.
Qed.

Lemma sorted_last_max (l : list (nat * string)) (x y : nat * string) :
  last (merge_sort key_le l) = Some x → y ∈ l → y.1 ≤ x.1.
Proof.
  intros Hlast Hy.
  apply last_Some in Hlast as [l' Hl'].
  assert (Hs : StronglySorted key_le (l' ++ [x])).
  { rewrite <- Hl'. apply StronglySorted_merge_sort; apply _. }
  assert (Hy' : y ∈ l' ++ [x]).
  { rewrite <- Hl'. by rewrite merge_sort_Permutation. }
  apply elem_of_app in Hy' as [Hy'|Hy'%list_elem_of_singleton].
  - eapply (StronglySorted_app_1_elem_of key_le l' [x] y x) in Hs; [done|done|].
    by apply list_elem_of_singleton.
  - by subst.
Qed.

Lemma sorted_last_elem (l : list (nat * string)) (x : nat * string) :
  last (merge_sort key_le l) = Some x → x ∈ l.
Proof.
  intros Hlast%last_Some_elem_of. by rewrite merge_sort_Permutation in Hlast.
Qed.

Lemma sorted_last_None (l : list (nat * string)) :
  last (merge_sort key_le l) = None ↔ l = [].
Proof.
  rewrite last_None. split.
  - intros Hnil. apply Permutation_nil_r. rewrite <- Hnil.
    by rewrite merge_sort_Permutation.
  - by intros ->.
Qed.

(** [extract_deepest_layer] on a non-empty collection of stage names:
    the result is one of them and no other lies deeper. *)
Lemma extract_deepest_layer_Ok (self : MultiLayerEncoder) (layers : list string) :
  layers ≠ [] →
  (∀ n, n ∈ layers → n ∈ children_names self) →
  ∃ d, extract_deepest_layer self layers = Ok d ∧ d ∈ layers ∧
       ∀ n, n ∈ layers →
            position (children_names self) n ≤ position (children_names self) d.
Proof.
  intros Hne Hall. unfold extract_deepest_layer.
  rewrite verify_all_Ok by done. cbn.
  set (names := children_names self).
  set (elems := elements (list_to_set layers : gset string)).
  assert (Helems : ∀ n, n ∈ elems ↔ n ∈ layers).
  { intros n. unfold elems. by rewrite elem_of_elements, elem_of_list_to_set. }
  rewrite (mapM_result_Ok _ (λ layer, (position names layer, layer))); last first.
  { intros n Hn%Helems. rewrite index_position by auto. done. }
  cbn.
  destruct (last (merge_sort key_le _)) as [[i d]|] eqn:Hlast; cbn.
  - exists d. split; [done|].
    pose proof (sorted_last_elem _ _ Hlast) as Hd.
    apply list_elem_of_fmap in Hd as (d' & [= -> ->] & Hd'%Helems).
    split; [done|]. intros n Hn%Helems.
    apply (sorted_last_max _ _ (position names n, n)) in Hlast; [done|].
    apply list_elem_of_fmap. by exists n.
  - apply sorted_last_None, fmap_nil_inv in Hlast.
    destruct layers as [|n layers]; [done|].
    assert (Hn : n ∈ elems) by (apply Helems; left).
    rewrite Hlast in Hn. by apply elem_of_nil in Hn.
Qed.

Lemma extract_deepest_layer_Raise (self : MultiLayerEncoder) (layers : list string) :
  (∃ n, n ∈ layers ∧ n ∉ children_names self) →
  ∃ n, n ∈ layers ∧ (n ∉ children_names self) ∧
       extract_deepest_layer self layers = Raise (UnknownLayerError n).
Proof.
  intros Hex. destruct (verify_all_Raise self layers Hex) as (n & Hn & Hout & Hv).
  exists n. split_and!; [done..|]. unfold extract_deepest_layer. by rewrite Hv.
Qed.

(** ** The cache lookups of [forward] *)

Lemma stored_layers_of_spec (storage : gmap (string * Key) Tensor) (k : Key) (n : string) :
  n ∈ stored_layers_of storage k ↔ is_Some (storage !! (n, k)).
Proof.
  unfold stored_layers_of, keys. rewrite list_elem_of_fmap. split.
  - intros ([n' k'] & -> & Hin). apply list_elem_of_filter in Hin as [Hk Hin].
    cbn in Hk. subst k'. apply list_elem_of_fmap in Hin as ([nk t] & Heq & Hin).
    cbn in Heq. subst nk. apply elem_of_map_to_list in Hin. by eexists.
  - intros [t Ht]. exists (n, k). split; [done|].
    apply list_elem_of_filter. split; [done|].
    apply list_elem_of_fmap. exists ((n, k), t). split; [done|].
    by apply elem_of_map_to_list.
Qed.

Lemma diff_layers_of_spec (storage : gmap (string * Key) Tensor) (k : Key)
    (layers : list string) (n : string) :
  n ∈ diff_layers_of storage k layers ↔ n ∈ layers ∧ storage !! (n, k) = None.
Proof.
  unfold diff_layers_of.
  rewrite elem_of_difference, !elem_of_list_to_set, stored_layers_of_spec.
  by rewrite eq_None_not_Some.
Qed.

Lemma diff_layers_of_empty (storage : gmap (string * Key) Tensor) (k : Key)
    (layers : list string) :
  diff_layers_of storage k layers = ∅ ↔
  ∀ n, n ∈ layers → is_Some (storage !! (n, k)).
Proof.
  split.
  - intros Hempty n Hn.
    destruct (storage !! (n, k)) as [t|] eqn:Hlook; [by eexists|].
    assert (Hd : n ∈ diff_layers_of storage k layers)
      by by apply diff_layers_of_spec.
    rewrite Hempty in Hd. by apply not_elem_of_empty in Hd.
  - intros Hall. apply set_eq. intros n. rewrite diff_layers_of_spec.
    split; [|by intros ?%not_elem_of_empty].
    intros [Hn Hnone]. destruct (Hall n Hn) as [t Ht]. congruence.
Qed.

Lemma mapM_getitem_Ok (storage : gmap (string * Key) Tensor) (k : Key)
    (layers : list string) (ts : list Tensor) :
  Forall2 (λ n t, storage !! (n, k) = Some t) layers ts →
  mapM (λ name, getitem storage name k) layers = Ok ts.
Proof.
  induction 1 as [|n t layers ts Hn _ IH]; [done|].
  rewrite mapM_result_cons, IH. unfold getitem. by rewrite Hn.
Qed.

Lemma mapM_getitem_total (storage : gmap (string * Key) Tensor) (k : Key)
    (layers : list string) :
  (∀ n, n ∈ layers → is_Some (storage !! (n, k))) →
  ∃ ts, Forall2 (λ n t, storage !! (n, k) = Some t) layers ts ∧
        mapM (λ name, getitem storage name k) layers = Ok ts.
Proof.
  intros Hall.
  assert (Hts : ∃ ts, Forall2 (λ n t, storage !! (n, k) = Some t) layers ts).
  { induction layers as [|n layers IH]; [by exists []|].
    destruct (Hall n) as [t Ht]; [by left|].
    destruct IH as [ts Hts]; [intros m Hm; apply Hall; by right|].
    exists (t :: ts). by constructor. }
  destruct Hts as [ts Hts]. exists ts. split; [done|]. by apply mapM_getitem_Ok.
Qed.

Lemma mapM_getitem_inv (storage : gmap (string * Key) Tensor) (k : Key)
    (layers : list string) (ts : list Tensor) :
  mapM (λ name, getitem storage name k) layers = Ok ts →
  Forall2 (λ n t, storage !! (n, k) = Some t) layers ts.
Proof.
  revert ts. induction layers as [|n layers IH]; intros ts.
  - intros [= <-]. constructor.
  - rewrite mapM_result_cons.
    destruct (mapM _ layers) as [ts'|e]; unfold getitem;
      destruct (storage !! (n, k)) as [t|] eqn:Hn; cbn; try done.
    intros [= <-]. constructor; [done|]. by apply IH.
Qed.

(** ** The loop over the stages *)

Lemma forward_loop_spec (children : list (string * Module)) (k : Key) (x : Tensor)
    (storage : gmap (string * Key) Tensor) (st : machine) :
  forward_loop children k x storage st =
  (Machine (self st) (called st ++ attempted call children x),
   match chain_outputs call children x with
   | inl e => Raise (Raised e)
   | inr outs => Ok (store_outputs k storage outs)
   end).
Proof.
  revert x storage st. induction children as [|[n m] rest IH]; intros x storage st.
  - cbn. rewrite app_nil_r. by destruct st.
  - cbn. unfold mbind, M_bind, call_module.
    destruct (call m x) as [e|y]; cbn; [done|].
    rewrite IH. cbn. rewrite <- app_assoc. cbn.
    by destruct (chain_outputs call rest y).
Qed.

Lemma chain_outputs_names (f : Module → Tensor → Exn + Tensor)
    (children : list (string * Module)) (x : Tensor) (outs : list (string * Tensor)) :
  chain_outputs f children x = inr outs → outs.*1 = children.*1.
Proof.
  revert x outs. induction children as [|[n m] rest IH]; intros x outs; cbn.
  - by intros [= <-].
  - destruct (f m x) as [e|y]; [done|].
    destruct (chain_outputs f rest y) as [e|outs'] eqn:Hrest; [done|].
    intros [= <-]. cbn. f_equal. by eapply IH.
Qed.

Lemma attempted_all (f : Module → Tensor → Exn + Tensor)
    (children : list (string * Module)) (x : Tensor) (outs : list (string * Tensor)) :
  chain_outputs f children x = inr outs → attempted f children x = children.*1.
Proof.
  revert x outs. induction children as [|[n m] rest IH]; intros x outs; cbn; [done|].
  destruct (f m x) as [e|y]; [done|].
  destruct (chain_outputs f rest y) as [e|outs'] eqn:Hrest; [done|].
  intros _. cbn. f_equal. by eapply IH.
Qed.

Lemma chain_outputs_lookup (f : Module → Tensor → Exn + Tensor)
    (children : list (string * Module)) (x : Tensor) (outs : list (string * Tensor))
    (i : nat) (n : string) (t : Tensor) :
  chain_outputs f children x = inr outs →
  outs !! i = Some (n, t) →
  chain f (take (S i) children) x = inr t.
Proof.
  revert x outs i. induction children as [|[n' m] rest IH]; intros x outs i; cbn.
  - intros [= <-]. done.
  - destruct (f m x) as [e|y]; [done|].
    destruct (chain_outputs f rest y) as [e|outs'] eqn:Hrest; [done|].
    intros [= <-]. destruct i as [|i]; cbn.
    + intros [= _ <-]. by destruct rest.
    + intros Hi. by eapply IH.
Qed.

Lemma chain_outputs_inl (f : Module → Tensor → Exn + Tensor)
    (children : list (string * Module)) (x : Tensor) (e : Exn) :
  chain_outputs f children x = inl e ↔ chain f children x = inl e.
Proof.
  revert x. induction children as [|[n m] rest IH]; intros x; cbn; [done|].
  destruct (f m x) as [e'|y]; [split; congruence|].
  rewrite <- IH. destruct (chain_outputs f rest y); split; congruence.
Qed.

Lemma store_outputs_other (k k' : Key) (storage : gmap (string * Key) Tensor)
    (outs : list (string * Tensor)) (n : string) :
  k' ≠ k ∨ n ∉ outs.*1 →
  store_outputs k storage outs !! (n, k') = storage !! (n, k').
Proof.
  revert storage. unfold store_outputs.
  induction outs as [|[n' t] outs IH]; intros storage Hother; cbn; [done|].
  rewrite IH.
  - cbn. apply lookup_insert_ne. cbn in Hother.
    intros [= -> ->]. destruct Hother as [?|Hn]; [done|].
    apply Hn. by left.
  - destruct Hother as [?|Hn]; [by left|]. right. cbn in Hn.
    by apply not_elem_of_cons in Hn as [_ ?].
Qed.

Lemma store_outputs_elem (k : Key) (storage : gmap (string * Key) Tensor)
    (outs : list (string * Tensor)) (n : string) (t : Tensor) :
  NoDup outs.*1 → (n, t) ∈ outs →
  store_outputs k storage outs !! (n, k) = Some t.
Proof.
  revert storage. unfold store_outputs.
  induction outs as [|[n' t'] outs IH]; intros storage Hnd Hin; cbn.
  - by apply elem_of_nil in Hin.
  - cbn in Hnd. apply NoDup_cons in Hnd as [Hfresh Hnd].
    apply elem_of_cons in Hin as [[= <- <-]|Hin].
    + fold (store_outputs k (<[(n, k):=t]> storage) outs).
      rewrite store_outputs_other by by right. apply lookup_insert_eq.
    + by apply IH.
Qed.

Lemma store_outputs_is_Some (k : Key) (storage : gmap (string * Key) Tensor)
    (outs : list (string * Tensor)) (n : string) :
  n ∈ outs.*1 → is_Some (store_outputs k storage outs !! (n, k)).
Proof.
  revert storage. unfold store_outputs.
  induction outs as [|[n' t'] outs IH]; intros storage Hin; cbn.
  - by apply elem_of_nil in Hin.
  - cbn in Hin. destruct (decide (n ∈ outs.*1)) as [Hn|Hn]; [by apply IH|].
    apply elem_of_cons in Hin as [->|?]; [|done].
    fold (store_outputs k (<[(n', k):=t']> storage) outs).
    rewrite store_outputs_other by by right. rewrite lookup_insert_eq. by eexists.
Qed.

Lemma store_outputs_union (k : Key) (storage : gmap (string * Key) Tensor)
    (outs : list (string * Tensor)) :
  store_outputs k storage outs ∪ storage = store_outputs k storage outs.
Proof.
  apply map_eq. intros [n k'].
  rewrite lookup_union.
  destruct (store_outputs k storage outs !! (n, k')) as [t|] eqn:Hs.
  - by destruct (storage !! (n, k')).
  - destruct (decide (k' = k ∧ n ∈ outs.*1)) as [[-> Hn]|Hno].
    + apply (store_outputs_is_Some k storage) in Hn as [t Ht]. congruence.
    + rewrite store_outputs_other in Hs.
      * by rewrite Hs.
      * destruct (decide (k' = k)); [right|by left]. naive_solver.
Qed.

(** ** [forward], step by step *)

Lemma named_children_to_Ok (self : MultiLayerEncoder) (layer : string) :
  layer ∈ children_names self →
  named_children_to self layer true = Ok (upto self layer).
Proof.
  intros Hin. unfold named_children_to.
  rewrite verify_layer_Ok, index_position by done. cbn.
  unfold upto, named_children. by rewrite Nat.add_1_r.
Qed.

Lemma forward_hit (x : Tensor) (layers : list string) (store : bool) (st : machine) :
  diff_layers_of (_cache (self st)) (TensorKey x) layers = ∅ →
  forward x layers store st =
  (st, mapM (λ name, getitem (_cache (self st)) name (TensorKey x)) layers).
Proof.
  intros Hempty. unfold forward, mbind, M_bind, get_self. cbn.
  fold (diff_layers_of (_cache (self st)) (TensorKey x) layers).
  rewrite bool_decide_eq_false_2 by by intros ?. done.
Qed.

Lemma forward_miss (x : Tensor) (layers : list string) (store : bool) (st : machine) :
  diff_layers_of (_cache (self st)) (TensorKey x) layers ≠ ∅ →
  forward x layers store st =
  match extract_deepest_layer (self st)
          (elements (diff_layers_of (_cache (self st)) (TensorKey x) layers)) with
  | Raise e => (st, Raise e)
  | Ok deepest =>
      match named_children_to (self st) deepest true with
      | Raise e => (st, Raise e)
      | Ok children =>
          match chain_outputs call children x with
          | inl e => (with_called st (attempted call children x), Raise (Raised e))
          | inr outs =>
              let storage := store_outputs (TensorKey x) (_cache (self st)) outs in
              (with_called (if store then with_cache st storage else st)
                           (attempted call children x),
               mapM (λ name, getitem storage name (TensorKey x)) layers)
          end
      end
  end.
Proof.
  intros Hne. unfold forward, mbind at 1, M_bind at 1, get_self.
  fold (diff_layers_of (_cache (self st)) (TensorKey x) layers).
  rewrite bool_decide_eq_true_2 by done.
  unfold mbind, M_bind, lift.
  destruct (extract_deepest_layer _ _) as [deepest|e]; [|done].
  destruct (named_children_to _ _ _) as [children|e]; [|done].
  rewrite forward_loop_spec.
  destruct (chain_outputs call children x) as [e|outs]; [done|].
  destruct store; cbn; [|done].
  by rewrite store_outputs_union.
Qed.

(** ** The stages up to a layer *)

Lemma list_index_le (x : string) (l : list string) (i : nat) :
  l !! i = Some x → ∃ j, list_index x l = Some j ∧ j ≤ i.
Proof.
  revert i. induction l as [|y l IH]; intros i; [done|]. cbn.
  destruct (decide (x = y)) as [->|Hne]; [intros _; exists 0; split; [done|lia]|].
  destruct i as [|i]; cbn; [by intros [= ->]|].
  intros (j & -> & Hj)%IH. exists (S j). split; [done|lia].
Qed.

Lemma position_lookup (names : list string) (n : string) :
  n ∈ names → names !! position names n = Some n.
Proof.
  intros [i Hi]%list_index_is_Some. unfold position. rewrite Hi. cbn.
  by apply list_index_lookup.
Qed.

Lemma position_le (names : list string) (n : string) (i : nat) :
  names !! i = Some n → position names n ≤ i.
Proof.
  intros (j & Hj & Hle)%list_index_le. unfold position. by rewrite Hj.
Qed.

Lemma upto_names (self : MultiLayerEncoder) (d : string) :
  (upto self d).*1 = take (S (position (children_names self) d)) (children_names self).
Proof. unfold upto, children_names, named_children. by rewrite fmap_take. Qed.

Lemma elem_of_upto (self : MultiLayerEncoder) (n d : string) :
  n ∈ (upto self d).*1 ↔
  n ∈ children_names self ∧
  position (children_names self) n ≤ position (children_names self) d.
Proof.
  rewrite upto_names. split.
  - intros [i Hi]%list_elem_of_lookup_1.
    apply lookup_take_Some in Hi as [Hi Hlt]. split.
    + by eapply list_elem_of_lookup_2.
    + apply position_le in Hi. lia.
  - intros [Hin Hle]. apply (list_elem_of_lookup_2 _ (position (children_names self) n)).
    apply lookup_take_Some. split; [by apply position_lookup|lia].
Qed.

Lemma upto_upto (self : MultiLayerEncoder) (n d : string) :
  position (children_names self) n ≤ position (children_names self) d →
  take (S (position (children_names self) n)) (upto self d) = upto self n.
Proof. intros Hle. unfold upto. rewrite take_take. f_equal. lia. Qed.

Lemma NoDup_upto (self : MultiLayerEncoder) (d : string) :
  NoDup (children_names self) → NoDup (upto self d).*1.
Proof.
  intros Hnd. rewrite upto_names. rewrite <- (take_drop (S (position (children_names self) d))) in Hnd.
  by apply NoDup_app in Hnd as [? _].
Qed.

(** What a successful run through the stages up to [d] leaves for a
    stage [n] on the way: the activation of [n]. *)
Lemma outputs_activation (self : MultiLayerEncoder) (d n : string) (x : Tensor)
    (outs : list (string * Tensor)) :
  chain_outputs call (upto self d) x = inr outs →
  n ∈ (upto self d).*1 →
  ∃ t, (n, t) ∈ outs ∧ activation self n x = Some t.
Proof.
  intros Houts Hn.
  pose proof (chain_outputs_names _ _ _ _ Houts) as Hnames.
  apply elem_of_upto in Hn as [Hin Hle].
  set (i := position (children_names self) n) in *.
  assert (Hi : outs.*1 !! i = Some n).
  { rewrite Hnames, upto_names. apply lookup_take_Some.
    split; [by apply position_lookup|lia]. }
  rewrite list_lookup_fmap in Hi.
  destruct (outs !! i) as [[n' t]|] eqn:Hout; [|done]. cbn in Hi.
  injection Hi as ->. exists t. split; [by eapply list_elem_of_lookup_2|].
  apply (chain_outputs_lookup _ _ _ _ _ _ _ Houts) in Hout.
  unfold i in Hout. rewrite upto_upto in Hout by done.
  unfold activation. rewrite decide_True by done. by rewrite Hout.
Qed.

Lemma forward_deepest (x : Tensor) (layers : list string) (st : machine) :
  let diff := diff_layers_of (_cache (self st)) (TensorKey x) layers in
  diff ≠ ∅ →
  (∀ n, n ∈ diff → n ∈ children_names (self st)) →
  ∃ d, extract_deepest_layer (self st) (elements diff) = Ok d ∧
       d ∈ diff ∧
       ∀ n, n ∈ diff →
            position (children_names (self st)) n ≤ position (children_names (self st)) d.
Proof.
  intros diff Hne Hall.
  destruct (extract_deepest_layer_Ok (self st) (elements diff)) as (d & Hd & Hin & Hmax).
  - intros Hnil. by apply elements_empty_inv, leibniz_equiv in Hnil.
  - intros n Hn%elem_of_elements. by apply Hall.
  - exists d. split; [done|]. split; [by apply elem_of_elements|].
    intros n Hn. apply Hmax. by apply elem_of_elements.
Qed.

(** After a successful run every requested layer is in the storage. *)
Lemma forward_storage_total (x : Tensor) (layers : list string) (st : machine)
    (d : string) (outs : list (string * Tensor)) :
  let diff := diff_layers_of (_cache (self st)) (TensorKey x) layers in
  (∀ n, n ∈ diff →
        n ∈ children_names (self st) ∧
        position (children_names (self st)) n ≤ position (children_names (self st)) d) →
  chain_outputs call (upto (self st) d) x = inr outs →
  ∀ n, n ∈ layers →
       is_Some (store_outputs (TensorKey x) (_cache (self st)) outs !! (n, TensorKey x)).
Proof.
  intros diff Hdiff Houts n Hn.
  destruct (decide (n ∈ outs.*1)) as [Hrun|Hrun].
  { by apply store_outputs_is_Some. }
  rewrite store_outputs_other by by right.
  destruct (_cache (self st) !! (n, TensorKey x)) as [t|] eqn:Hlook; [by eexists|].
  exfalso. apply Hrun. rewrite (chain_outputs_names _ _ _ _ Houts).
  apply elem_of_upto, Hdiff. by apply diff_layers_of_spec.
Qed.

(** ** Properties of the container operations *)

(** C7: [extract_deepest_layer] raises the unknown-layer error when a name
    of the collection is not a stage name; on a non-empty collection of
    stage names it returns the one name of the collection that lies latest
    in the container's order.  On the order a, b, c the collection {a, c}
    gives c, on the order c, b, a it gives a. *)
Theorem deepest_layer_latest (self : MultiLayerEncoder) (layers : list string) :
  let names := children_names self in
  ((∃ n, n ∈ layers ∧ n ∉ names) →
   ∃ n, n ∈ layers ∧ (n ∉ names) ∧
        extract_deepest_layer self layers = Raise (UnknownLayerError n)) ∧
  (layers ≠ [] → Forall (λ n, n ∈ names) layers →
   ∃ d, extract_deepest_layer self layers = Ok d ∧ d ∈ layers ∧
        (∀ n, n ∈ layers → position names n ≤ position names d) ∧
        (∀ d', d' ∈ layers →
               (∀ n, n ∈ layers → position names n ≤ position names d') → d' = d)) ∧
  (list_to_set layers = ({["a"; "c"]} : gset string) →
   ∀ ma mb mc,
     (_modules self = [("a", ma); ("b", mb); ("c", mc)] →
      extract_deepest_layer self layers = Ok "c") ∧
     (_modules self = [("c", mc); ("b", mb); ("a", ma)] →
      extract_deepest_layer self layers = Ok "a")).
Proof.
  clear TensorKey call guides_propagate_guide.
  intros names. split_and!.
  - apply extract_deepest_layer_Raise.
  - intros Hne Hall. rewrite Forall_forall in Hall.
    destruct (extract_deepest_layer_Ok self layers Hne Hall) as (d & Hd & Hin & Hmax).
    exists d. split_and!; [done..|].
    intros d' Hd' Hmax'. apply (position_inj names); [by apply Hall..|].
    apply Nat.le_antisymm; [by apply Hmax|by apply Hmax'].
  - intros Hset ma mb mc.
    assert (Hmem : ∀ n, n ∈ layers ↔ n = "a" ∨ n = "c").
    { intros n. rewrite <- (elem_of_list_to_set (C:=gset string)), Hset.
      by rewrite elem_of_union, !elem_of_singleton. }
    assert (Hne : layers ≠ []).
    { intros ->. apply (not_elem_of_nil ("a" : string)), Hmem. by left. }
    split; intros Hmods.
    + destruct (extract_deepest_layer_Ok self layers Hne) as (d & Hd & Hin & Hmax).
      { intros n [-> | ->]%Hmem; unfold children_names, named_children;
          rewrite Hmods; cbn; compute_done. }
      rewrite Hd. f_equal. apply Hmem in Hin as [-> | ->]; [|done].
      specialize (Hmax "c"). unfold children_names, named_children in Hmax.
      rewrite Hmods in Hmax. cbn in Hmax.
      assert (Hc : ("c" : string) ∈ layers) by (apply Hmem; by right).
      specialize (Hmax Hc). vm_compute in Hmax. lia.
    + destruct (extract_deepest_layer_Ok self layers Hne) as (d & Hd & Hin & Hmax).
      { intros n [-> | ->]%Hmem; unfold children_names, named_children;
          rewrite Hmods; cbn; compute_done. }
      rewrite Hd. f_equal. apply Hmem in Hin as [-> | ->]; [done|].
      specialize (Hmax "a"). unfold children_names, named_children in Hmax.
      rewrite Hmods in Hmax. cbn in Hmax.
      assert (Ha : ("a" : string) ∈ layers) by (apply Hmem; by left).
      specialize (Hmax Ha). vm_compute in Hmax. lia.
Qed.

Lemma extract_deepest_layer_nil (self : MultiLayerEncoder) :
  extract_deepest_layer self [] = Raise IndexError.
Proof.
  unfold extract_deepest_layer. cbn.
  replace (elements (∅ : gset string)) with (@nil string) by by rewrite elements_empty.
  done.
Qed.

Lemma extract_deepest_layer_cases (self : MultiLayerEncoder) (layers : list string) :
  (layers = [] ∧ extract_deepest_layer self layers = Raise IndexError) ∨
  (∃ n, n ∈ layers ∧ (n ∉ children_names self) ∧
        extract_deepest_layer self layers = Raise (UnknownLayerError n)) ∨
  (∃ d, extract_deepest_layer self layers = Ok d ∧ d ∈ layers ∧
        ∀ n, n ∈ layers →
             n ∈ children_names self ∧
             position (children_names self) n ≤ position (children_names self) d).
Proof.
  destruct (decide (Forall (λ n, n ∈ children_names self) layers)) as [Hall|Hex].
  - destruct layers as [|n0 layers].
    { left. split; [done|]. apply extract_deepest_layer_nil. }
    right. right. rewrite Forall_forall in Hall.
    destruct (extract_deepest_layer_Ok self (n0 :: layers)) as (d & Hd & Hin & Hmax);
      [done|done|].
    exists d. split_and!; [done..|]. intros n Hn. split; [by apply Hall|by apply Hmax].
  - right. left. apply extract_deepest_layer_Raise.
    apply not_Forall_Exists in Hex; [|apply _].
    apply Exists_exists in Hex as (n & Hn & Hout). by exists n.
Qed.

(** The three ways a call of [forward] can go: every requested layer is
    cached and nothing runs; a requested layer that is not cached is not a
    stage name; or the stages up to the deepest missing layer run, and the
    cache is written when they all succeed and [store] is set. *)
Lemma forward_cases (x : Tensor) (layers : list string) (store : bool) (st : machine) :
  let k := TensorKey x in
  let cache := _cache (self st) in
  let names := children_names (self st) in
  let diff := diff_layers_of cache k layers in
  (diff = ∅ ∧
   ∃ ts, Forall2 (λ n t, cache !! (n, k) = Some t) layers ts ∧
         forward x layers store st = (st, Ok ts)) ∨
  (∃ n, n ∈ diff ∧ (n ∉ names) ∧
        forward x layers store st = (st, Raise (UnknownLayerError n))) ∨
  (∃ d, d ∈ diff ∧
        (∀ n, n ∈ diff → n ∈ names ∧ position names n ≤ position names d) ∧
        ((∃ e, chain_outputs call (upto (self st) d) x = inl e ∧
               forward x layers store st =
               (with_called st (attempted call (upto (self st) d) x),
                Raise (Raised e))) ∨
         (∃ outs ts,
            chain_outputs call (upto (self st) d) x = inr outs ∧
            Forall2 (λ n t, store_outputs k cache outs !! (n, k) = Some t) layers ts ∧
            forward x layers store st =
            (with_called (if store then with_cache st (store_outputs k cache outs) else st)
                         (upto (self st) d).*1,
             Ok ts)))).
Proof.
  cbv zeta.
  set (k := TensorKey x). set (cache := _cache (self st)).
  set (names := children_names (self st)). set (diff := diff_layers_of cache k layers).
  destruct (decide (diff = ∅)) as [Hempty|Hne].
  { left. split; [done|].
    destruct (mapM_getitem_total cache k layers) as (ts & Hts & Hmap).
    { by apply diff_layers_of_empty. }
    exists ts. split; [done|]. rewrite forward_hit by done.
    fold k cache. by rewrite Hmap. }
  right. rewrite (forward_miss x layers store st Hne).
  fold k cache diff.
  destruct (extract_deepest_layer_cases (self st) (elements diff))
    as [[Hnil _]|[(n & Hn & Hout & ->)|(d & -> & Hd & Hmax)]].
  - exfalso. apply Hne. by apply elements_empty_inv, leibniz_equiv in Hnil.
  - left. exists n. split; [by apply elem_of_elements|]. done.
  - right. exists d. apply elem_of_elements in Hd.
    assert (Hmax' : ∀ n, n ∈ diff → n ∈ names ∧ position names n ≤ position names d).
    { intros n Hn. apply Hmax. by apply elem_of_elements. }
    split; [done|]. split; [done|].
    rewrite named_children_to_Ok by by apply Hmax'.
    destruct (chain_outputs call (upto (self st) d) x) as [e|outs] eqn:Houts.
    + left. by exists e.
    + right. cbv zeta.
      destruct (mapM_getitem_total (store_outputs k cache outs) k layers)
        as (ts & Hts & Hmap).
      { by apply (forward_storage_total x layers st d outs). }
      exists outs, ts. split; [done|]. split; [done|].
      rewrite Hmap. by rewrite (attempted_all _ _ _ _ Houts).
Qed.

(** ** Properties of [forward] *)

(** C1: on the stages a, b, c with an empty cache, [forward(x, ["c"])]
    calls a, b, c in this order, each once; and when every requested layer
    is cached under the key of the input, [forward] returns the cached
    tensors and calls no stage. *)
Theorem forward_runs_once_and_reuses (ma mb mc : Module)
    (registered : gset string) (x : Tensor) (store : bool) (log : list string)
    (ta tb tc : Tensor) (st : machine) (layers : list string) :
  let modules := [("a", ma); ("b", mb); ("c", mc)] in
  (call ma x = inr ta → call mb ta = inr tb → call mc tb = inr tc →
   forward x ["c"] store (Machine (Build_encoder modules registered ∅) log) =
   (Machine (Build_encoder modules registered
               (if store
                then <[("c", TensorKey x) := tc]>
                       (<[("b", TensorKey x) := tb]> (<[("a", TensorKey x) := ta]> ∅))
                else ∅))
            (log ++ ["a"; "b"; "c"]),
    Ok [tc])) ∧
  (Forall (λ n, is_Some (_cache (self st) !! (n, TensorKey x))) layers →
   ∃ ts, Forall2 (λ n t, _cache (self st) !! (n, TensorKey x) = Some t) layers ts ∧
         forward x layers store st = (st, Ok ts)).
Proof.
  clear guides_propagate_guide.
  intros modules. split.
  - intros Ha Hb Hc.
    set (st0 := Machine (Build_encoder modules registered ∅) log).
    assert (Hdiff : ∀ n, n ∈ diff_layers_of (_cache (self st0)) (TensorKey x) ["c"] ↔ n = "c").
    { intros n. rewrite diff_layers_of_spec. cbn. rewrite lookup_empty.
      rewrite list_elem_of_singleton. tauto. }
    assert (Hupto : upto (self st0) "c" = modules) by done.
    assert (Houts : chain_outputs call modules x = inr [("a", ta); ("b", tb); ("c", tc)]).
    { cbn. rewrite Ha, Hb, Hc. done. }
    destruct (forward_cases x ["c"] store st0)
      as [[Hempty _]|[(n & Hn & Hout & _)|(d & Hd & _ & Hrun)]].
    + exfalso. eapply (not_elem_of_empty (C:=gset string) "c").
      rewrite <- Hempty. by apply Hdiff.
    + exfalso. apply Hdiff in Hn as ->. apply Hout. cbn. compute_done.
    + apply Hdiff in Hd as ->. rewrite Hupto, Houts in Hrun.
      destruct Hrun as [(e & [=] & _)|(outs & ts & [= <-] & Hts & ->)].
      inversion Hts as [|? t ? ts' Ht Hnil]; subst. inversion Hnil; subst.
      rewrite (store_outputs_elem _ _ _ "c" tc) in Ht.
      * injection Ht as <-. by destruct store.
      * cbn. compute_done.
      * do 2 right. left.
  - intros Hall. rewrite Forall_forall in Hall.
    destruct (forward_cases x layers store st)
      as [(_ & ts & Hts & ->)|[(n & Hn & _)|(d & Hd & _)]].
    + by exists ts.
    + apply diff_layers_of_spec in Hn as [Hn Hnone].
      destruct (Hall n Hn) as [t Ht]. congruence.
    + apply diff_layers_of_spec in Hd as [Hd Hnone].
      destruct (Hall d Hd) as [t Ht]. congruence.
Qed.

(** C4, amended: for a name [z] that is not a stage name and has no
    entry in the cache under the key of the input, [forward(x, [z])]
    raises the unknown-layer error, calls no stage and leaves the encoder,
    its cache included, as it was. *)
Theorem forward_unknown_uncached (x : Tensor) (z : string) (store : bool) (st : machine) :
  z ∉ children_names (self st) →
  _cache (self st) !! (z, TensorKey x) = None →
  forward x [z] store st = (st, Raise (UnknownLayerError z)).
Proof.
  intros Hout Hnone.
  assert (Hdiff : ∀ n, n ∈ diff_layers_of (_cache (self st)) (TensorKey x) [z] ↔ n = z).
  { intros n. rewrite diff_layers_of_spec, list_elem_of_singleton.
    split; [tauto|]. by intros ->. }
  destruct (forward_cases x [z] store st)
    as [[Hempty _]|[(n & Hn & _ & ->)|(d & Hd & Hin & _)]].
  - exfalso. eapply (not_elem_of_empty (C:=gset string) z).
    rewrite <- Hempty. by apply Hdiff.
  - by apply Hdiff in Hn as ->.
  - exfalso. apply Hout. apply (Hin z). by apply Hdiff.
Qed.

(** C5: [forward] changes the cache only in a call with [store] set whose
    stages all ran: with [store=False] the cache stays as it was, and so
    it does in every call that raises, the call of a stage included. *)
Theorem forward_cache_frame (x : Tensor) (layers : list string) (store : bool)
    (st : machine) :
  _cache (self (forward x layers false st).1) = _cache (self st) ∧
  (_cache (self (forward x layers store st).1) = _cache (self st) ∨
   store = true ∧ ∃ ts, (forward x layers store st).2 = Ok ts) ∧
  match (forward x layers store st).2 with
  | Raise _ => _cache (self (forward x layers store st).1) = _cache (self st)
  | Ok _ => True
  end.
Proof.
  split_and!.
  - destruct (forward_cases x layers false st)
      as [(_ & ts & _ & ->)|[(n & _ & _ & ->)|(d & _ & _ & [(e & _ & ->)|(outs & ts & _ & _ & ->)])]];
      done.
  - destruct (forward_cases x layers store st)
      as [(_ & ts & _ & ->)|[(n & _ & _ & ->)|(d & _ & _ & [(e & _ & ->)|(outs & ts & _ & _ & ->)])]];
      try by left.
    destruct store; [right|by left]. split; [done|]. by exists ts.
  - destruct (forward_cases x layers store st)
      as [(_ & ts & _ & ->)|[(n & _ & _ & ->)|(d & _ & _ & [(e & _ & ->)|(outs & ts & _ & _ & ->)])]];
      done.
Qed.

(** C6: a name with an entry in the cache under the key of the input is
    returned from the cache without any check against the container, so
    also when it is not a stage name; the unknown-layer error is raised
    only for a requested name that has no such entry. *)
Theorem forward_cached_unverified (x : Tensor) (n : string) (t : Tensor)
    (layers : list string) (store : bool) (st st' : machine) (m : string) :
  (_cache (self st) !! (n, TensorKey x) = Some t →
   forward x [n] store st = (st, Ok [t])) ∧
  (forward x layers store st = (st', Raise (UnknownLayerError m)) →
   m ∈ layers ∧ _cache (self st) !! (m, TensorKey x) = None ∧
   m ∉ children_names (self st)).
Proof.
  split.
  - intros Hn.
    destruct (forward_cases x [n] store st)
      as [(_ & ts & Hts & ->)|[(n' & Hn' & _)|(d & Hd & _)]].
    + inversion Hts as [|? t' ? ts' Ht Hnil]; subst. inversion Hnil; subst.
      congruence.
    + apply diff_layers_of_spec in Hn' as [->%list_elem_of_singleton ?]. congruence.
    + apply diff_layers_of_spec in Hd as [->%list_elem_of_singleton ?]. congruence.
  - destruct (forward_cases x layers store st)
      as [(_ & ts & _ & ->)|[(n' & Hn' & Hout & ->)|(d & _ & _ & [(e & _ & ->)|(outs & ts & _ & _ & ->)])]];
      try done.
    intros [= _ <-]. apply diff_layers_of_spec in Hn' as [? ?]. done.
Qed.

(** ** [trim] *)

Lemma filter_all {A} (P : A → Prop) `{∀ a, Decision (P a)} (l : list A) :
  Forall P l → filter P l = l.
Proof.
  induction 1 as [|a l Ha _ IH]; [done|].
  rewrite filter_cons_True by done. by rewrite IH.
Qed.

Lemma filter_other_names (name : string) (l : list (string * Module)) :
  name ∉ l.*1 → filter (λ nm, nm.1 ≠ name) l = l.
Proof.
  intros Hout. apply filter_all, Forall_forall. intros [n m] Hin Heq.
  cbn in Heq. subst n. apply Hout. apply list_elem_of_fmap. by exists (name, m).
Qed.

Lemma del_module_spec (pre rest : list (string * Module)) (name : string) (module : Module)
    (registered : gset string) (cache : gmap (string * Key) Tensor) (log : list string) :
  NoDup (pre ++ (name, module) :: rest).*1 →
  del_module name (Machine (Build_encoder (pre ++ (name, module) :: rest) registered cache) log) =
  (Machine (Build_encoder (pre ++ rest) registered cache) log, Ok tt).
Proof.
  intros Hnd. unfold del_module, mbind, M_bind, get_self, contains. cbn.
  rewrite bool_decide_eq_true_2; last first.
  { unfold children_names, named_children. cbn. rewrite fmap_app. cbn.
    apply elem_of_app. right. by left. }
  unfold set_modules. cbn. do 3 f_equal.
  rewrite fmap_app in Hnd. cbn in Hnd.
  apply NoDup_app in Hnd as (_ & Hdisj & Hrest).
  apply NoDup_cons in Hrest as [Hfresh _].
  rewrite filter_app, filter_cons_False by (cbn; by intros ?).
  rewrite !filter_other_names; [done|done|].
  intros Hin. apply (Hdisj name Hin). by left.
Qed.

Lemma del_modules_spec (rest pre : list (string * Module))
    (registered : gset string) (cache : gmap (string * Key) Tensor) (log : list string) :
  NoDup (pre ++ rest).*1 →
  mapM (λ nm, del_module nm.1) rest
       (Machine (Build_encoder (pre ++ rest) registered cache) log) =
  (Machine (Build_encoder pre registered cache) log, Ok ((λ _, tt) <$> rest)).
Proof.
  induction rest as [|[name module] rest IH]; intros Hnd.
  - by rewrite app_nil_r.
  - change (mapM (λ nm, del_module nm.1) ((name, module) :: rest))
      with (y ← del_module name; k ← mapM (λ nm, del_module nm.1) rest; mret (y :: k)).
    unfold mbind at 1, M_bind at 1. rewrite del_module_spec by done.
    unfold mbind at 1, M_bind at 1. rewrite IH; [done|].
    rewrite fmap_app in *. cbn in Hnd.
    apply NoDup_app in Hnd as (Hpre & Hdisj & Hrest).
    apply NoDup_cons in Hrest as [_ Hrest].
    apply NoDup_app. split_and!; [done| |done].
    intros n Hn Hn'. apply (Hdisj n Hn). by right.
Qed.

Lemma del_modules_drop (i : nat) (modules : list (string * Module))
    (registered : gset string) (cache : gmap (string * Key) Tensor) (log : list string) :
  NoDup modules.*1 →
  mapM (λ nm, del_module nm.1) (drop i modules)
       (Machine (Build_encoder modules registered cache) log) =
  (Machine (Build_encoder (take i modules) registered cache) log,
   Ok ((λ _, tt) <$> drop i modules)).
Proof.
  intros Hnd.
  pose proof (del_modules_spec (drop i modules) (take i modules) registered cache log)
    as Hdel.
  rewrite take_drop in Hdel. by apply Hdel.
Qed.

Lemma named_children_from_Ok (self : MultiLayerEncoder) (layer : string) :
  layer ∈ children_names self →
  named_children_from self layer false =
  Ok (drop (S (position (children_names self) layer)) (_modules self)).
Proof.
  intros Hin. unfold named_children_from.
  rewrite verify_layer_Ok, index_position by done. cbn.
  unfold named_children. by rewrite Nat.add_1_r.
Qed.

Lemma trim_spec (layers : option (list string)) (st : machine) :
  let this := self st in
  let names := children_names this in
  let wanted := default (elements (registered_layers this)) layers in
  NoDup names → wanted ≠ [] → (∀ n, n ∈ wanted → n ∈ names) →
  ∃ d, d ∈ wanted ∧
       (∀ n, n ∈ wanted → position names n ≤ position names d) ∧
       trim layers st =
       (Machine (Build_encoder (upto this d) (registered_layers this) (_cache this))
                (called st), Ok tt).
Proof.
  cbv zeta. intros Hnd Hne Hall.
  destruct (extract_deepest_layer_Ok (self st) _ Hne Hall) as (d & Hd & Hin & Hmax).
  exists d. split_and!; [done..|].
  unfold trim, mbind at 1, M_bind at 1, get_self.
  unfold mbind at 1, M_bind at 1, lift at 1. rewrite Hd.
  unfold mbind at 1, M_bind at 1, lift at 1.
  rewrite named_children_from_Ok by by apply Hall.
  unfold mbind at 1, M_bind at 1.
  destruct st as [[modules registered cache] log].
  cbn [self _modules registered_layers _cache called] in *.
  by rewrite del_modules_drop.
Qed.

(** C3, amended: [trim(layers)], with the registered layers when [layers]
    is omitted, deletes exactly the stages strictly after the deepest
    layer of the collection, so [trim(["b"])] on a, b, c leaves a, b; from
    then on a call of [forward] that requests a deleted layer with no entry
    in the cache under the key of its input raises the unknown-layer
    error. *)
Theorem trim_deletes_tail (layers : option (list string)) (st : machine) :
  let this := self st in
  let names := children_names this in
  let wanted := default (elements (registered_layers this)) layers in
  NoDup names → wanted ≠ [] → Forall (λ n, n ∈ names) wanted →
  ∃ d, d ∈ wanted ∧
       (∀ n, n ∈ wanted → position names n ≤ position names d) ∧
       trim layers st =
       (Machine (Build_encoder (upto this d) (registered_layers this) (_cache this))
                (called st), Ok tt) ∧
       (∀ n, n ∈ (upto this d).*1 ↔ n ∈ names ∧ position names n ≤ position names d) ∧
       (∀ ma mb mc, layers = Some ["b"] →
                    _modules this = [("a", ma); ("b", mb); ("c", mc)] →
                    upto this d = [("a", ma); ("b", mb)]) ∧
       (∀ z x requested store registered' cache' log',
          z ∈ names → position names d < position names z →
          z ∈ requested → cache' !! (z, TensorKey x) = None →
          ∃ m, forward x requested store
                 (Machine (Build_encoder (upto this d) registered' cache') log') =
               (Machine (Build_encoder (upto this d) registered' cache') log',
                Raise (UnknownLayerError m))).
Proof.
  cbv zeta. intros Hnd Hne Hall. rewrite Forall_forall in Hall.
  destruct (trim_spec layers st Hnd Hne Hall) as (d & Hd & Hmax & Htrim).
  exists d. split_and!; [done..| | |].
  - intros n. apply elem_of_upto.
  - intros ma mb mc -> Hmods. cbn in Hd. apply list_elem_of_singleton in Hd as ->.
    unfold upto, children_names, named_children. by rewrite Hmods.
  - intros z x requested store registered' cache' log' Hz Hdeep Hreq Hnone.
    set (st' := Machine (Build_encoder (upto (self st) d) registered' cache') log').
    assert (Hgone : z ∉ children_names (self st')).
    { unfold children_names, named_children. cbn. rewrite elem_of_upto. lia. }
    assert (Hdiff : z ∈ diff_layers_of (_cache (self st')) (TensorKey x) requested).
    { by apply diff_layers_of_spec. }
    destruct (forward_cases x requested store st')
      as [[Hempty _]|[(m & _ & _ & ->)|(d' & _ & Hin & _)]].
    + rewrite Hempty in Hdiff. by apply not_elem_of_empty in Hdiff.
    + by exists m.
    + exfalso. apply Hgone. by apply Hin.
Qed.

(** ** [encode] *)

Lemma dict_zip_lookup (g : string → option Tensor) (k : Key)
    (ls : list string) (ts : list Tensor) (m0 : gmap (string * Key) Tensor)
    (l : string) (k' : Key) :
  Forall2 (λ l t, g l = Some t) ls ts →
  foldl (λ d kv, <[kv.1 := kv.2]> d) m0 (zip ((λ l, (l, k)) <$> ls) ts) !! (l, k') =
  if decide (k' = k ∧ l ∈ ls) then g l else m0 !! (l, k').
Proof.
  intros Hts. revert m0. induction Hts as [|l0 t0 ls ts Hl0 _ IH]; intros m0.
  - cbn. rewrite decide_False; [done|]. intros [_ []%elem_of_nil].
  - cbn. rewrite IH. destruct (decide (k' = k ∧ l ∈ ls)) as [[-> Hin]|Hno].
    + rewrite decide_True; [done|]. split; [done|]. by right.
    + destruct (decide (k' = k ∧ l ∈ l0 :: ls)) as [[-> Hin]|Hno'].
      * apply elem_of_cons in Hin as [->|Hin]; [|by destruct Hno].
        by rewrite lookup_insert_eq.
      * apply lookup_insert_ne. intros [= -> ->]. apply Hno'. split; [done|]. by left.
Qed.

Lemma activation_is_Some (self : MultiLayerEncoder) (l : string) (x : Tensor) :
  is_Some (activation self l x) →
  l ∈ children_names self ∧ ∃ t, chain call (upto self l) x = inr t.
Proof.
  unfold activation.
  destruct (decide (l ∈ children_names self)) as [Hin|Hout]; [|by intros [? ?]].
  destruct (chain call (upto self l) x) as [e|t]; [by intros [? ?]|].
  intros _. split; [done|]. by exists t.
Qed.

(** [forward] on layers whose activations exist, with a cache that holds
    activations under the key of the input: the result is the activations. *)
Lemma forward_activations (x : Tensor) (layers : list string) (store : bool)
    (st : machine) :
  NoDup (children_names (self st)) →
  (∀ l, l ∈ layers → is_Some (activation (self st) l x)) →
  (∀ l t, l ∈ layers → _cache (self st) !! (l, TensorKey x) = Some t →
          activation (self st) l x = Some t) →
  ∃ ts st', forward x layers store st = (st', Ok ts) ∧
            _modules (self st') = _modules (self st) ∧
            registered_layers (self st') = registered_layers (self st) ∧
            Forall2 (λ l t, activation (self st) l x = Some t) layers ts.
Proof.
  intros Hnd Hact Hcoh.
  destruct (forward_cases x layers store st)
    as [(_ & ts & Hts & ->)|[(n & Hn & Hout & _)|(d & Hd & Hin & Hrun)]].
  - exists ts, st. split_and!; [done..|].
    apply Forall2_same_length_lookup. split; [by eapply Forall2_length|].
    intros i l t Hl Ht. apply Hcoh; [by eapply list_elem_of_lookup_2|].
    exact (Forall2_lookup_lr _ _ _ _ _ _ Hts Hl Ht).
  - apply diff_layers_of_spec in Hn as [Hn _].
    by destruct (activation_is_Some _ _ _ (Hact n Hn)).
  - apply diff_layers_of_spec in Hd as [Hd _].
    destruct (activation_is_Some _ _ _ (Hact d Hd)) as [_ [t Ht]].
    destruct Hrun as [(e & He%chain_outputs_inl & _)|(outs & ts & Houts & Hts & ->)];
      [congruence|].
    eexists ts, _. split; [done|]. split_and!; [by destruct store..|].
    apply Forall2_same_length_lookup. split; [by eapply Forall2_length|].
    intros i l t' Hl Ht'.
    pose proof (Forall2_lookup_lr _ _ _ _ _ _ Hts Hl Ht') as Hlook. cbn in Hlook.
    destruct (decide (l ∈ outs.*1)) as [Hran|Hran].
    + rewrite (chain_outputs_names _ _ _ _ Houts) in Hran.
      destruct (outputs_activation _ _ _ _ _ Houts Hran) as (t'' & Hmem & Hact'').
      rewrite (store_outputs_elem _ _ _ l t'') in Hlook; [congruence| |done].
      rewrite (chain_outputs_names _ _ _ _ Houts). by apply NoDup_upto.
    + rewrite store_outputs_other in Hlook by by right.
      apply Hcoh; [by eapply list_elem_of_lookup_2|done].
Qed.

(** C2: [encode(x)] with registered layers leaves in the cache exactly
    one entry per registered layer, under the key of [x], holding the
    activation of that layer for [x], and no other entry; with no
    registered layer it changes nothing.  The entries that the cache held
    under the key of [x] are assumed to be activations (the invariant of
    the cache), and the activations of the registered layers to exist. *)
Theorem encode_replaces_cache (x : Tensor) (st : machine) :
  let this := self st in
  let registered := registered_layers this in
  let key := TensorKey x in
  (registered = ∅ → encode x st = (st, Ok tt)) ∧
  (registered ≠ ∅ →
   NoDup (children_names this) →
   Forall (λ l, is_Some (activation this l x)) (elements registered) →
   Forall (λ l, _cache this !! (l, key) = None ∨
                _cache this !! (l, key) = activation this l x) (elements registered) →
   ∃ cache' log',
     encode x st = (Machine (Build_encoder (_modules this) registered cache') log', Ok tt) ∧
     ∀ l k', cache' !! (l, k') =
             if decide (k' = key ∧ l ∈ registered) then activation this l x else None).
Proof.
  cbv zeta. split.
  - intros Hempty. unfold encode, mbind, M_bind, get_self. cbn.
    by rewrite bool_decide_eq_true_2.
  - intros Hne Hnd Hact Hcoh. rewrite Forall_forall in Hact, Hcoh.
    destruct (forward_activations x (elements (registered_layers (self st))) true st)
      as (ts & st' & Hfwd & Hmods & Hregs & Hts); [done|done| |].
    { intros l t Hl Ht. destruct (Hcoh l Hl) as [Hnone|Hsame]; congruence. }
    unfold encode, mbind at 1, M_bind at 1, get_self.
    rewrite bool_decide_eq_false_2 by done.
    unfold mbind, M_bind. rewrite Hfwd. unfold set_cache. rewrite Hmods, Hregs.
    eexists _, _. split; [done|].
    intros l k'. unfold dict.
    rewrite (dict_zip_lookup (λ l, activation (self st) l x)) by done.
    rewrite lookup_empty.
    destruct (decide (k' = TensorKey x ∧ l ∈ elements (registered_layers (self st))))
      as [[-> Hin]|Hno].
    + rewrite decide_True; [done|]. split; [done|]. by apply elem_of_elements.
    + rewrite decide_False; [done|]. rewrite <- elem_of_elements. done.
Qed.

(** ** [propagate_guide] *)

Lemma propagate_loop_spec (children : list (string * Module)) (method : string)
    (allow_empty : bool) (guide : Tensor) (guides : gmap string Tensor) :
  propagate_loop children method allow_empty guide guides =
  match chain_outputs (propagator method allow_empty) children guide with
  | inl e => Raise (Raised e)
  | inr outs => Ok (store_guides guides outs)
  end.
Proof.
  revert guide guides. induction children as [|[n m] rest IH]; intros guide guides.
  - done.
  - cbn. unfold propagator at 1.
    destruct (guides_propagate_guide m guide method allow_empty) as [e|g]; cbn; [done|].
    rewrite IH. by destruct (chain_outputs _ rest g).
Qed.

Lemma store_guides_other (guides : gmap string Tensor) (outs : list (string * Tensor))
    (n : string) :
  n ∉ outs.*1 → store_guides guides outs !! n = guides !! n.
Proof.
  revert guides. unfold store_guides.
  induction outs as [|[n' t] outs IH]; intros guides Hout; cbn; [done|].
  cbn in Hout. apply not_elem_of_cons in Hout as [Hne Hout].
  rewrite IH by done. by apply lookup_insert_ne.
Qed.

Lemma store_guides_elem (guides : gmap string Tensor) (outs : list (string * Tensor))
    (n : string) (t : Tensor) :
  NoDup outs.*1 → (n, t) ∈ outs → store_guides guides outs !! n = Some t.
Proof.
  revert guides. unfold store_guides.
  induction outs as [|[n' t'] outs IH]; intros guides Hnd Hin; cbn.
  - by apply elem_of_nil in Hin.
  - cbn in Hnd. apply NoDup_cons in Hnd as [Hfresh Hnd].
    apply elem_of_cons in Hin as [[= <- <-]|Hin]; [|by apply IH].
    fold (store_guides (<[n:=t]> guides) outs).
    rewrite store_guides_other by done. apply lookup_insert_eq.
Qed.

(** What a successful propagation through the stages up to [d] leaves for
    a stage [n] on the way. *)
Lemma outputs_guide (self : MultiLayerEncoder) (d n : string) (guide : Tensor)
    (method : string) (allow_empty : bool) (outs : list (string * Tensor)) :
  chain_outputs (propagator method allow_empty) (upto self d) guide = inr outs →
  n ∈ (upto self d).*1 →
  ∃ g, (n, g) ∈ outs ∧ guide_of self n guide method allow_empty = inr g.
Proof.
  intros Houts Hn.
  pose proof (chain_outputs_names _ _ _ _ Houts) as Hnames.
  apply elem_of_upto in Hn as [Hin Hle].
  set (i := position (children_names self) n) in *.
  assert (Hi : outs.*1 !! i = Some n).
  { rewrite Hnames, upto_names. apply lookup_take_Some.
    split; [by apply position_lookup|lia]. }
  rewrite list_lookup_fmap in Hi.
  destruct (outs !! i) as [[n' g]|] eqn:Hout; [|done]. cbn in Hi.
  injection Hi as ->. exists g. split; [by eapply list_elem_of_lookup_2|].
  apply (chain_outputs_lookup _ _ _ _ _ _ _ Houts) in Hout.
  unfold i in Hout. rewrite upto_upto in Hout by done. done.
Qed.

(** C8: [propagate_guide] passes the guide through the guide propagator
    of every stage from the first one through the deepest of [layers], and
    returns, in the order of [layers], the guide each requested layer
    received on the way; an error of the propagator is raised as it is. *)
Theorem propagate_guide_through_deepest (self : MultiLayerEncoder) (guide : Tensor)
    (layers : list string) (method : string) (allow_empty : bool) :
  let names := children_names self in
  NoDup names → layers ≠ [] → Forall (λ n, n ∈ names) layers →
  ∃ d, d ∈ layers ∧
       (∀ n, n ∈ layers → position names n ≤ position names d) ∧
       match guide_of self d guide method allow_empty with
       | inl e =>
           propagate_guide self guide layers method allow_empty = Raise (Raised e)
       | inr _ =>
           ∃ gs, propagate_guide self guide layers method allow_empty = Ok gs ∧
                 Forall2 (λ n g, guide_of self n guide method allow_empty = inr g)
                         layers gs
       end.
Proof.
  cbv zeta. intros Hnd Hne Hall. rewrite Forall_forall in Hall.
  destruct (extract_deepest_layer_Ok self layers Hne Hall) as (d & Hd & Hin & Hmax).
  exists d. split_and!; [done..|].
  unfold propagate_guide. rewrite Hd. cbn.
  rewrite named_children_to_Ok by by apply Hall. cbn.
  rewrite propagate_loop_spec. unfold guide_of at 1.
  destruct (chain_outputs (propagator method allow_empty) (upto self d) guide)
    as [e|outs] eqn:Houts.
  { apply chain_outputs_inl in Houts. by rewrite Houts. }
  destruct (chain (propagator method allow_empty) (upto self d) guide) as [e|g] eqn:Hg.
  { apply chain_outputs_inl in Hg. congruence. }
  cbn.
  assert (Hgs : ∀ n, n ∈ layers →
            ∃ g', guide_of self n guide method allow_empty = inr g' ∧
                  store_guides ∅ outs !! n = Some g').
  { intros n Hn.
    destruct (outputs_guide self d n guide method allow_empty outs Houts)
      as (g' & Hmem & Hg'); [apply elem_of_upto; auto|].
    exists g'. split; [done|]. apply store_guides_elem; [|done].
    rewrite (chain_outputs_names _ _ _ _ Houts). by apply NoDup_upto. }
  clear Hne Hin Hmax Hall Hd.
  induction layers as [|n layers IH].
  - exists []. split; [done|constructor].
  - destruct IH as (gs & Hmap & Hfa); [intros m Hm; apply Hgs; by right|].
    destruct (Hgs n) as (g' & Hg' & Hlook); [by left|].
    exists (g' :: gs). split; [|by constructor].
    rewrite mapM_result_cons, Hmap, Hlook. done.
Qed.

(** ** More on [forward] *)

Lemma attempted_prefix (f : Module → Tensor → Exn + Tensor)
    (children : list (string * Module)) (x : Tensor) :
  ∃ n, attempted f children x = take n children.*1.
Proof.
  revert x. induction children as [|[name module] rest IH]; intros x.
  - by exists 0.
  - cbn. destruct (f module x) as [e|y].
    + by exists 1.
    + destruct (IH y) as [n ->]. by exists (S n).
Qed.

Lemma forward_shape (x : Tensor) (layers : list string) (store : bool) (st : machine) :
  let st' := (forward x layers store st).1 in
  _modules (self st') = _modules (self st) ∧
  registered_layers (self st') = registered_layers (self st) ∧
  ∃ n, called st' = called st ++ take n (children_names (self st)).
Proof.
  cbv zeta.
  destruct (forward_cases x layers store st)
    as [(_ & ts & _ & ->)|[(m & _ & _ & ->)|(d & _ & _ & [(e & _ & ->)|(outs & ts & _ & _ & ->)])]];
    cbn [fst].
  - split_and!; [done..|]. exists 0. by rewrite app_nil_r.
  - split_and!; [done..|]. exists 0. by rewrite app_nil_r.
  - split_and!; [done..|].
    destruct (attempted_prefix call (upto (self st) d) x) as [n ->].
    rewrite upto_names, take_take. by eexists.
  - split_and!; [by destruct store..|].
    rewrite upto_names. exists (S (position (children_names (self st)) d)).
    by destruct store.
Qed.


Lemma Forall2_lookup_functional {A B} (g : A → option B) (l : list A) (ts : list B)
    (i j : nat) (a : A) :
  Forall2 (λ a t, g a = Some t) l ts →
  l !! i = Some a → l !! j = Some a → ts !! i = ts !! j.
Proof.
  intros Hts Hi Hj.
  destruct (Forall2_lookup_l _ _ _ _ _ Hts Hi) as (ti & Hti & Hgi).
  destruct (Forall2_lookup_l _ _ _ _ _ Hts Hj) as (tj & Htj & Hgj).
  cbn in Hgi, Hgj. congruence.
Qed.

Lemma forward_Ok_lookups (x : Tensor) (layers : list string) (store : bool)
    (st st' : machine) (ts : list Tensor) :
  forward x layers store st = (st', Ok ts) →
  ∃ storage, Forall2 (λ n t, storage !! (n, TensorKey x) = Some t) layers ts ∧
             (store = true → _cache (self st') = storage) ∧
             (∀ l t, _cache (self st) !! (l, TensorKey x) = Some t →
                     is_Some (storage !! (l, TensorKey x))) ∧
             (∀ l k, k ≠ TensorKey x →
                     storage !! (l, k) = _cache (self st) !! (l, k)).
Proof.
  destruct (forward_cases x layers store st)
    as [(Hempty & ts' & Hts & ->)|[(m & _ & _ & ->)|(d & _ & _ & [(ex & _ & ->)|(outs & ts' & _ & Hts & ->)])]];
    intros [= <- <-].
  - exists (_cache (self st)). split_and!; [done|done| |done].
    intros l t Hl. by eexists.
  - exists (store_outputs (TensorKey x) (_cache (self st)) outs).
    split_and!; [done| | |].
    + by intros ->.
    + intros l t Hl. destruct (decide (l ∈ outs.*1)).
      * by apply store_outputs_is_Some.
      * rewrite store_outputs_other by by right. by eexists.
    + intros l k Hk. apply store_outputs_other. by left.
Qed.

(** X2: the tuple [forward] returns has one tensor per requested name,
    in the order of the request, and a name requested twice gets the same
    tensor at both places. *)
Theorem forward_result_shape (x : Tensor) (layers : list string) (store : bool)
    (st st' : machine) (ts : list Tensor) :
  forward x layers store st = (st', Ok ts) →
  length ts = length layers ∧
  ∀ i j l, layers !! i = Some l → layers !! j = Some l → ts !! i = ts !! j.
Proof.
  intros (storage & Hts & _)%forward_Ok_lookups. split.
  - symmetry. by eapply Forall2_length.
  - intros i j l. by apply (Forall2_lookup_functional _ _ _ _ _ _ Hts).
Qed.

(** X3: whatever the outcome, [forward] leaves the stages and the
    registered layers alone, and the stages it calls are the first ones of
    the container, in the order of the container. *)
Theorem forward_calls_prefix (x : Tensor) (layers : list string) (store : bool)
    (st : machine) :
  let st' := (forward x layers store st).1 in
  _modules (self st') = _modules (self st) ∧
  registered_layers (self st') = registered_layers (self st) ∧
  ∃ n, called st' = called st ++ take n (children_names (self st)).
Proof. apply forward_shape. Qed.

(** X4: after a call of [forward] with [store=True] that returned, the
    same request for the same input is answered from the cache: no stage
    is called, nothing changes, and the same tensors come back. *)
Theorem forward_store_then_hit (x : Tensor) (layers : list string) (store' : bool)
    (st st1 : machine) (ts : list Tensor) :
  forward x layers true st = (st1, Ok ts) →
  forward x layers store' st1 = (st1, Ok ts).
Proof.
  intros (storage & Hts & Hcache & _)%forward_Ok_lookups.
  specialize (Hcache eq_refl). subst storage.
  rewrite forward_hit.
  - by rewrite (mapM_getitem_Ok _ _ _ ts).
  - apply diff_layers_of_empty. intros n Hn.
    apply list_elem_of_lookup_1 in Hn as [i Hi].
    destruct (Forall2_lookup_l _ _ _ _ _ Hts Hi) as (t & _ & Ht). by eexists.
Qed.

Lemma stored_activation (self : MultiLayerEncoder) (d l : string) (x : Tensor)
    (k : Key) (cache : gmap (string * Key) Tensor) (outs : list (string * Tensor)) :
  NoDup (children_names self) →
  chain_outputs call (upto self d) x = inr outs →
  l ∈ (upto self d).*1 →
  store_outputs k cache outs !! (l, k) = activation self l x ∧
  is_Some (activation self l x).
Proof.
  intros Hnd Houts Hl.
  destruct (outputs_activation self d l x outs Houts Hl) as (t & Hmem & Hact).
  rewrite Hact. split; [|by eexists].
  apply store_outputs_elem; [|done].
  rewrite (chain_outputs_names _ _ _ _ Houts). by apply NoDup_upto.
Qed.

(** X5: what a returning [forward] with [store=True] leaves in the cache:
    the entries under other keys as they were, no entry lost, and, for
    every requested layer that was missing, the activation of that layer
    and of every stage before it. *)
Theorem forward_store_contents (x : Tensor) (layers : list string)
    (st st' : machine) (ts : list Tensor) :
  NoDup (children_names (self st)) →
  forward x layers true st = (st', Ok ts) →
  let names := children_names (self st) in
  (∀ l k, k ≠ TensorKey x → _cache (self st') !! (l, k) = _cache (self st) !! (l, k)) ∧
  (∀ l, is_Some (_cache (self st) !! (l, TensorKey x)) →
        is_Some (_cache (self st') !! (l, TensorKey x))) ∧
  (∀ l l', l ∈ layers → _cache (self st) !! (l, TensorKey x) = None →
           l' ∈ names → position names l' ≤ position names l →
           is_Some (activation (self st) l' x) ∧
           _cache (self st') !! (l', TensorKey x) = activation (self st) l' x).
Proof.
  intros Hnd Hfwd. cbv zeta.
  destruct (forward_cases x layers true st)
    as [(Hempty & ts' & _ & Heq)|[(m & _ & _ & Heq)|(d & Hd & Hmax & [(ex & _ & Heq)|(outs & ts' & Houts & _ & Heq)])]];
    rewrite Heq in Hfwd; try discriminate Hfwd; injection Hfwd as <- <-.
  - split_and!; [done..|]. intros l l' Hl Hnone.
    assert (Hin : l ∈ diff_layers_of (_cache (self st)) (TensorKey x) layers)
      by by apply diff_layers_of_spec.
    rewrite Hempty in Hin. by apply not_elem_of_empty in Hin.
  - cbn [self with_called with_cache _cache]. split_and!.
    + intros l k Hk. apply store_outputs_other. by left.
    + intros l [t Ht]. destruct (decide (l ∈ outs.*1)).
      * by apply store_outputs_is_Some.
      * rewrite store_outputs_other by by right. by eexists.
    + intros l l' Hl Hnone Hl' Hle.
      assert (Hin : l ∈ diff_layers_of (_cache (self st)) (TensorKey x) layers)
        by by apply diff_layers_of_spec.
      destruct (stored_activation (self st) d l' x (TensorKey x) (_cache (self st)) outs)
        as [Hlook Hsome]; [done|done| |done].
      apply elem_of_upto. split; [done|]. destruct (Hmax l Hin). lia.
Qed.

(** X6: a request none of whose layers is cached under the key of the
    input, as after [clear_cache]: [forward] calls exactly the stages from
    the first one through the deepest requested layer and returns the
    activations of the requested layers; when a stage on the way raises,
    its error is raised and the encoder is left as it was. *)
Theorem forward_cold (x : Tensor) (layers : list string) (store : bool) (st : machine) :
  let names := children_names (self st) in
  NoDup names → layers ≠ [] → Forall (λ l, l ∈ names) layers →
  Forall (λ l, _cache (self st) !! (l, TensorKey x) = None) layers →
  ∃ d, d ∈ layers ∧
       (∀ l, l ∈ layers → position names l ≤ position names d) ∧
       match chain call (upto (self st) d) x with
       | inr _ =>
           ∃ st' ts, forward x layers store st = (st', Ok ts) ∧
                     called st' = called st ++ take (S (position names d)) names ∧
                     Forall2 (λ l t, activation (self st) l x = Some t) layers ts
       | inl ex =>
           ∃ st', forward x layers store st = (st', Raise (Raised ex)) ∧
                  self st' = self st
       end.
Proof.
  cbv zeta. intros Hnd Hne Hall Hcold. rewrite Forall_forall in Hall, Hcold.
  assert (Hdiff : ∀ l, l ∈ diff_layers_of (_cache (self st)) (TensorKey x) layers ↔
                       l ∈ layers).
  { intros l. rewrite diff_layers_of_spec. split; [by intros [? _]|]. auto. }
  destruct (forward_cases x layers store st)
    as [(Hempty & _)|[(m & Hm & Hout & _)|(d & Hd & Hmax & Hrun)]].
  - destruct layers as [|l layers]; [done|].
    assert (Hl : l ∈ diff_layers_of (_cache (self st)) (TensorKey x) (l :: layers))
      by (apply Hdiff; left).
    rewrite Hempty in Hl. by apply not_elem_of_empty in Hl.
  - exfalso. apply Hout, Hall. by apply Hdiff.
  - exists d. split; [by apply Hdiff|].
    split; [intros l Hl%Hdiff; by apply Hmax|].
    destruct Hrun as [(ex & Hex & ->)|(outs & ts & Houts & Hts & ->)].
    + apply chain_outputs_inl in Hex. rewrite Hex. by eexists.
    + destruct (chain call (upto (self st) d) x) as [ex|t] eqn:Hchain.
      { apply chain_outputs_inl in Hchain. congruence. }
      eexists _, ts. split; [done|]. split.
      { rewrite upto_names. by destruct store. }
      apply Forall2_same_length_lookup. split; [by eapply Forall2_length|].
      intros i l t' Hl Ht'.
      pose proof (Forall2_lookup_lr _ _ _ _ _ _ Hts Hl Ht') as Hlook. cbn in Hlook.
      destruct (stored_activation (self st) d l x (TensorKey x) (_cache (self st)) outs)
        as [Hstored _]; [done|done| |congruence].
      apply elem_of_upto, Hmax, Hdiff. by eapply list_elem_of_lookup_2.
Qed.

(** ** [SingleLayerEncoder] *)

Lemma SingleLayerEncoder_forward_unfold (layer : string) (x : Tensor) (st : machine) :
  SingleLayerEncoder_forward layer x st =
  match forward x [layer] false st with
  | (st', Ok encs) => (st', first_item encs)
  | (st', Raise e) => (st', Raise e)
  end.
Proof.
  unfold SingleLayerEncoder_forward, mbind, M_bind, lift.
  by destruct (forward x [layer] false st) as [st' [encs|e]].
Qed.

(** X7: [SingleLayerEncoder.forward] never writes the cache.  For a layer
    cached under the key of the input it returns the cached tensor and
    calls no stage; for a layer that is neither cached nor a stage name it
    raises the unknown-layer error; otherwise it calls the stages through
    its layer and returns the activation, or raises the error of the stage
    that fails.  Its [[0]] never fails. *)
Theorem SingleLayerEncoder_forward_spec (layer : string) (x : Tensor) (st : machine) :
  NoDup (children_names (self st)) →
  self (SingleLayerEncoder_forward layer x st).1 = self st ∧
  match _cache (self st) !! (layer, TensorKey x) with
  | Some t => SingleLayerEncoder_forward layer x st = (st, Ok t)
  | None =>
      if decide (layer ∈ children_names (self st))
      then match chain call (upto (self st) layer) x with
           | inr t =>
               SingleLayerEncoder_forward layer x st =
               (with_called st (upto (self st) layer).*1, Ok t)
           | inl ex =>
               SingleLayerEncoder_forward layer x st =
               (with_called st (attempted call (upto (self st) layer) x),
                Raise (Raised ex))
           end
      else SingleLayerEncoder_forward layer x st = (st, Raise (UnknownLayerError layer))
  end.
Proof.
  intros Hnd. rewrite SingleLayerEncoder_forward_unfold.
  assert (Hdiff : ∀ l, l ∈ diff_layers_of (_cache (self st)) (TensorKey x) [layer] ↔
                       l = layer ∧ _cache (self st) !! (layer, TensorKey x) = None).
  { intros l. rewrite diff_layers_of_spec, list_elem_of_singleton.
    split; [by intros [-> ?]|by intros [-> ?]]. }
  destruct (forward_cases x [layer] false st)
    as [(Hempty & ts & Hts & ->)|[(m & Hm & Hout & ->)|(d & Hd & Hmax & Hrun)]].
  - inversion Hts as [|? t ? ts' Ht Hnil]; subst. inversion Hnil; subst.
    rewrite Ht. done.
  - apply Hdiff in Hm as [-> ->]. split; [done|]. by rewrite decide_False.
  - apply Hdiff in Hd as [-> Hnone]. rewrite Hnone.
    destruct (Hmax layer) as [Hin _]; [by apply Hdiff|].
    rewrite decide_True by done.
    destruct Hrun as [(ex & Hex & ->)|(outs & ts & Houts & Hts & ->)].
    + split; [done|]. apply chain_outputs_inl in Hex. by rewrite Hex.
    + split; [done|].
      inversion Hts as [|? t ? ts' Ht Hnil]; subst. inversion Hnil; subst.
      destruct (stored_activation (self st) layer layer x (TensorKey x)
                  (_cache (self st)) outs) as [Hstored _]; [done|done| |].
      { apply elem_of_upto. split; [done|lia]. }
      rewrite Hstored in Ht. unfold activation in Ht.
      rewrite decide_True in Ht by done.
      destruct (chain call (upto (self st) layer) x) as [ex|t']; [done|].
      by injection Ht as ->.
Qed.

(** X8: [SingleLayerEncoder.propagate_guide] returns the guide passed
    through the propagators of the stages up to its layer, raises the
    error of the propagator that fails, and raises the unknown-layer error
    when its layer is no stage name. *)
Theorem SingleLayerEncoder_propagate_guide_spec (self : MultiLayerEncoder)
    (layer : string) (guide : Tensor) :
  NoDup (children_names self) →
  SingleLayerEncoder_propagate_guide self layer guide =
  if decide (layer ∈ children_names self)
  then of_collaborator (guide_of self layer guide "simple" false)
  else Raise (UnknownLayerError layer).
Proof.
  intros Hnd. unfold SingleLayerEncoder_propagate_guide, propagate_guide.
  destruct (decide (layer ∈ children_names self)) as [Hin|Hout].
  - destruct (extract_deepest_layer_Ok self [layer]) as (d & Hd & Hmem & _); [done| |].
    { by intros n ->%list_elem_of_singleton. }
    apply list_elem_of_singleton in Hmem as ->. rewrite Hd. cbn.
    rewrite named_children_to_Ok by done. cbn.
    rewrite propagate_loop_spec. unfold guide_of.
    destruct (chain_outputs (propagator "simple" false) (upto self layer) guide)
      as [e|outs] eqn:Houts.
    { apply chain_outputs_inl in Houts. by rewrite Houts. }
    destruct (outputs_guide self layer layer guide "simple" false outs Houts)
      as (g & Hmem & Hg).
    { apply elem_of_upto. split; [done|lia]. }
    unfold guide_of in Hg. rewrite Hg. cbn.
    rewrite (store_guides_elem ∅ outs layer g); [done| |done].
    rewrite (chain_outputs_names _ _ _ _ Houts). by apply NoDup_upto.
  - destruct (extract_deepest_layer_Raise self [layer]) as (n & Hn & _ & ->).
    { exists layer. split; [by left|done]. }
    by apply list_elem_of_singleton in Hn as ->.
Qed.

(** ** More on the container operations and [trim] *)

Lemma named_children_from_first (self : MultiLayerEncoder) (layer : string) :
  layer ∈ children_names self →
  named_children_from self layer true =
  Ok (drop (position (children_names self) layer) (_modules self)).
Proof.
  intros Hin. unfold named_children_from.
  rewrite verify_layer_Ok, index_position by done. done.
Qed.

Lemma named_children_to_before (self : MultiLayerEncoder) (layer : string) :
  layer ∈ children_names self →
  named_children_to self layer false =
  Ok (take (position (children_names self) layer) (_modules self)).
Proof.
  intros Hin. unfold named_children_to.
  rewrite verify_layer_Ok, index_position by done. done.
Qed.

Lemma position_not_before (names : list string) (layer : string) :
  layer ∈ names → layer ∉ take (position names layer) names.
Proof.
  intros [i Hi]%list_index_is_Some. unfold position. rewrite Hi. cbn.
  by apply list_index_first.
Qed.

(** X9: [named_children_to] and [named_children_from] cut the container
    at the first place of the layer: with complementary flags the two
    slices put together are the whole container, the layer belongs to the
    first slice exactly when [include_last] is set, and heads the second
    one otherwise; both raise the unknown-layer error for a name that is
    no stage name. *)
Theorem named_children_split (self : MultiLayerEncoder) (layer : string)
    (include_last : bool) :
  if decide (layer ∈ children_names self)
  then ∃ front back,
         named_children_to self layer include_last = Ok front ∧
         named_children_from self layer (negb include_last) = Ok back ∧
         front ++ back = _modules self ∧
         (layer ∈ front.*1 ↔ include_last = true) ∧
         (include_last = false → head back.*1 = Some layer)
  else named_children_to self layer include_last = Raise (UnknownLayerError layer) ∧
       named_children_from self layer (negb include_last) =
       Raise (UnknownLayerError layer).
Proof.
  destruct (decide (layer ∈ children_names self)) as [Hin|Hout].
  - destruct include_last; cbn [negb].
    + exists (upto self layer),
        (drop (S (position (children_names self) layer)) (_modules self)).
      rewrite named_children_to_Ok, named_children_from_Ok by done.
      split_and!; [done|done|apply take_drop| |done].
      split; [done|]. intros _. apply elem_of_upto. split; [done|lia].
    + exists (take (position (children_names self) layer) (_modules self)),
        (drop (position (children_names self) layer) (_modules self)).
      rewrite named_children_to_before, named_children_from_first by done.
      split_and!; [done|done|apply take_drop| |].
      * split; [|done]. intros Hfront. exfalso.
        apply (position_not_before (children_names self) layer Hin).
        unfold children_names, named_children. by rewrite <- fmap_take.
      * intros _. rewrite fmap_drop, head_lookup, lookup_drop, Nat.add_0_r.
        by apply position_lookup.
  - unfold named_children_to, named_children_from.
    by rewrite verify_layer_Raise.
Qed.

(** X10: the layer [extract_deepest_layer] returns depends on the set of
    the names only, not on their order or on repetitions. *)
Theorem extract_deepest_layer_set (self : MultiLayerEncoder) (layers layers' : list string)
    (d : string) :
  (list_to_set layers : gset string) = list_to_set layers' →
  extract_deepest_layer self layers = Ok d →
  extract_deepest_layer self layers' = Ok d.
Proof.
  intros Hset Hd.
  assert (Hmem : ∀ n, n ∈ layers ↔ n ∈ layers').
  { intros n. by rewrite <- !(elem_of_list_to_set (C:=gset string)), Hset. }
  destruct (extract_deepest_layer_cases self layers)
    as [[_ Heq]|[(n & _ & _ & Heq)|(d0 & Heq & Hd0 & Hmax)]];
    rewrite Heq in Hd; [done|done|]. injection Hd as ->.
  destruct (extract_deepest_layer_cases self layers')
    as [[-> _]|[(n & Hn & Hout & _)|(d' & -> & Hd' & Hmax')]].
  - apply Hmem in Hd0. by apply elem_of_nil in Hd0.
  - exfalso. apply Hout. by apply Hmax, Hmem.
  - f_equal. apply (position_inj (children_names self)).
    + by apply Hmax', Hd'.
    + by apply Hmax, Hd0.
    + apply Nat.le_antisymm; [by apply Hmax, Hmem|by apply Hmax', Hmem].
Qed.

Lemma trim_cases (layers : option (list string)) (st : machine) :
  let this := self st in
  let names := children_names this in
  let wanted := default (elements (registered_layers this)) layers in
  NoDup names →
  (wanted = [] ∧ trim layers st = (st, Raise IndexError)) ∨
  (∃ n, n ∈ wanted ∧ (n ∉ names) ∧ trim layers st = (st, Raise (UnknownLayerError n))) ∨
  (∃ d, d ∈ wanted ∧
        (∀ n, n ∈ wanted → n ∈ names ∧ position names n ≤ position names d) ∧
        trim layers st =
        (Machine (Build_encoder (upto this d) (registered_layers this) (_cache this))
                 (called st), Ok tt)).
Proof.
  cbv zeta. intros Hnd.
  destruct (extract_deepest_layer_cases (self st)
              (default (elements (registered_layers (self st))) layers))
    as [[Hnil Heq]|[(n & Hn & Hout & Heq)|(d & Heq & Hd & Hmax)]].
  - left. split; [done|].
    unfold trim, mbind, M_bind, get_self, lift. by rewrite Heq.
  - right. left. exists n. split_and!; [done..|].
    unfold trim, mbind, M_bind, get_self, lift. by rewrite Heq.
  - right. right. exists d. split_and!; [done..|].
    unfold trim, mbind at 1, M_bind at 1, get_self.
    unfold mbind at 1, M_bind at 1, lift at 1. rewrite Heq.
    unfold mbind at 1, M_bind at 1, lift at 1.
    rewrite named_children_from_Ok by by apply Hmax.
    unfold mbind at 1, M_bind at 1.
    destruct st as [[modules registered cache] log].
    cbn [self _modules registered_layers _cache called] in *.
    by rewrite del_modules_drop.
Qed.

(** X11: a call of [trim] that raises changes nothing: with no layer to
    keep, as for [trim()] before any layer is registered, it raises
    IndexError, and with a name that is no stage name the unknown-layer
    error. *)
Theorem trim_raises_unchanged (layers : option (list string)) (st : machine) :
  let this := self st in
  let wanted := default (elements (registered_layers this)) layers in
  (wanted = [] → trim layers st = (st, Raise IndexError)) ∧
  ((∃ n, n ∈ wanted ∧ n ∉ children_names this) →
   ∃ n, n ∈ wanted ∧ (n ∉ children_names this) ∧
        trim layers st = (st, Raise (UnknownLayerError n))).
Proof.
  cbv zeta. split.
  - intros Hnil. unfold trim, mbind, M_bind, get_self, lift.
    by rewrite Hnil, extract_deepest_layer_nil.
  - intros Hex.
    destruct (extract_deepest_layer_Raise (self st) _ Hex) as (n & Hn & Hout & Heq).
    exists n. split_and!; [done..|].
    unfold trim, mbind, M_bind, get_self, lift. by rewrite Heq.
Qed.

Lemma position_take (names : list string) (n : string) (i : nat) :
  n ∈ take i names → position (take i names) n = position names n.
Proof.
  intros Hin. unfold position.
  destruct (list_index_is_Some n (take i names) Hin) as [j Hj]. rewrite Hj.
  pose proof (list_index_lookup _ _ _ Hj) as Hlook.
  apply lookup_take_Some in Hlook as [Hlook Hlt].
  destruct (list_index_le _ _ _ Hlook) as (j' & Hj' & Hle). rewrite Hj'. cbn.
  apply Nat.le_antisymm; [|done].
  pose proof (list_index_lookup _ _ _ Hj') as Hlook'.
  assert (Htake : take i names !! j' = Some n)
    by (apply lookup_take_Some; split; [done|lia]).
  destruct (list_index_le _ _ _ Htake) as (j'' & Hj'' & Hle'). congruence.
Qed.

Lemma upto_take (modules : list (string * Module)) (registered registered' : gset string)
    (cache cache' : gmap (string * Key) Tensor) (i : nat) (l : string) :
  l ∈ (take i modules).*1 →
  upto (Build_encoder (take i modules) registered' cache') l =
  upto (Build_encoder modules registered cache) l.
Proof.
  intros Hin. unfold upto, children_names, named_children. cbn [_modules].
  rewrite fmap_take in *. rewrite position_take by done.
  rewrite take_take. f_equal.
  destruct (list_elem_of_lookup_1 _ _ Hin) as [j Hj].
  apply lookup_take_Some in Hj as [Hj Hlt].
  apply position_le in Hj. lia.
Qed.

Lemma activation_take (modules : list (string * Module)) (registered registered' : gset string)
    (cache cache' : gmap (string * Key) Tensor) (i : nat) (l : string) (x : Tensor) :
  l ∈ (take i modules).*1 →
  activation (Build_encoder (take i modules) registered' cache') l x =
  activation (Build_encoder modules registered cache) l x.
Proof.
  intros Hin. unfold activation.
  rewrite (upto_take modules registered registered' cache cache') by done.
  rewrite !decide_True; [done| |done].
  unfold children_names, named_children. cbn [_modules].
  rewrite fmap_take in Hin. by eapply subseteq_take.
Qed.

(** X12: [trim] keeps what the kept layers compute: after a call that
    returns, every stage that is left has the activation and the guide it
    had before, and a second call with the same argument deletes nothing
    more. *)
Theorem trim_keeps_activations (layers : option (list string)) (st st1 : machine) :
  NoDup (children_names (self st)) →
  trim layers st = (st1, Ok tt) →
  (∀ l x, l ∈ children_names (self st1) →
          activation (self st1) l x = activation (self st) l x) ∧
  (∀ l guide method allow_empty, l ∈ children_names (self st1) →
          guide_of (self st1) l guide method allow_empty =
          guide_of (self st) l guide method allow_empty) ∧
  trim layers st1 = (st1, Ok tt).
Proof.
  intros Hnd Htrim.
  destruct (trim_cases layers st Hnd)
    as [[_ Heq]|[(n & _ & _ & Heq)|(d & Hd & Hmax & Heq)]];
    rewrite Heq in Htrim; try discriminate Htrim. injection Htrim as <-.
  destruct st as [[modules registered cache] log].
  cbn [self _modules registered_layers _cache called] in *.
  set (i := S (position (children_names (Build_encoder modules registered cache)) d)).
  change (upto (Build_encoder modules registered cache) d) with (take i modules).
  split_and!.
  - intros l x Hl. by apply activation_take.
  - intros l guide method allow_empty Hl. unfold guide_of.
    by rewrite (upto_take modules registered registered cache cache).
  - set (st1 := Machine (Build_encoder (take i modules) registered cache) log).
    assert (Hnames1 : children_names (self st1) =
                      take i (children_names (Build_encoder modules registered cache))).
    { unfold children_names, named_children. cbn. by rewrite fmap_take. }
    assert (Hnd1 : NoDup (children_names (self st1))).
    { rewrite Hnames1.
      rewrite <- (take_drop i (children_names (Build_encoder modules registered cache))) in Hnd.
      by apply NoDup_app in Hnd as [? _]. }
    assert (Hkept : ∀ n, n ∈ default (elements registered) layers →
                         n ∈ children_names (self st1)).
    { intros n Hn. destruct (Hmax n Hn) as [Hin Hle]. rewrite Hnames1.
      apply (list_elem_of_lookup_2 _ (position (children_names (Build_encoder modules registered cache)) n)).
      apply lookup_take_Some. split; [by apply position_lookup|]. unfold i. lia. }
    destruct (trim_cases layers st1 Hnd1)
      as [[Hnil _]|[(n & Hn & Hout & _)|(d' & Hd' & Hmax' & ->)]].
    + cbn in Hnil. rewrite Hnil in Hd. by apply elem_of_nil in Hd.
    + exfalso. apply Hout. by apply Hkept.
    + cbn [self _modules registered_layers _cache called st1] in *.
      do 3 f_equal. unfold upto. cbn [_modules].
      rewrite Hnames1, position_take by (rewrite <- Hnames1; by apply Hkept).
      rewrite take_take. f_equal.
      assert (Heqpos : position (children_names (Build_encoder modules registered cache)) d' =
                       position (children_names (Build_encoder modules registered cache)) d).
      { apply Nat.le_antisymm; [by apply Hmax|].
        destruct (Hmax' d Hd) as [_ Hle]. rewrite Hnames1 in Hle.
        rewrite !position_take in Hle; [done| |].
        - rewrite <- Hnames1. by apply Hkept.
        - rewrite <- Hnames1. by apply Hkept. }
      unfold i. lia.
Qed.

(** X13: [propagate_guide] raises IndexError for an empty sequence of
    layers and the unknown-layer error for a name that is no stage name,
    in both cases before any guide is propagated, whatever the propagator
    would do. *)
Theorem propagate_guide_raises (self : MultiLayerEncoder) (guide : Tensor)
    (layers : list string) (method : string) (allow_empty : bool) :
  (layers = [] →
   propagate_guide self guide layers method allow_empty = Raise IndexError) ∧
  ((∃ n, n ∈ layers ∧ n ∉ children_names self) →
   ∃ n, n ∈ layers ∧ (n ∉ children_names self) ∧
        propagate_guide self guide layers method allow_empty =
        Raise (UnknownLayerError n)).
Proof.
  split.
  - intros ->. unfold propagate_guide. by rewrite extract_deepest_layer_nil.
  - intros Hex.
    destruct (extract_deepest_layer_Raise self layers Hex) as (n & Hn & Hout & Heq).
    exists n. split_and!; [done..|]. unfold propagate_guide. by rewrite Heq.
Qed.

(** ** More on [encode] *)

Lemma encode_unfold (x : Tensor) (st : machine) :
  registered_layers (self st) ≠ ∅ →
  encode x st =
  match forward x (elements (registered_layers (self st))) true st with
  | (st', Ok encs) =>
      (with_cache st'
         (dict (zip ((λ layer, (layer, TensorKey x)) <$>
                       elements (registered_layers (self st))) encs)), Ok tt)
  | (st', Raise e) => (st', Raise e)
  end.
Proof.
  intros Hne. unfold encode, mbind at 1, M_bind at 1, get_self.
  rewrite bool_decide_eq_false_2 by done. unfold mbind, M_bind.
  by destruct (forward x _ true st) as [st' [encs|e]].
Qed.

Lemma encode_empty (x : Tensor) (st : machine) :
  registered_layers (self st) = ∅ → encode x st = (st, Ok tt).
Proof.
  intros Hempty. unfold encode, mbind, M_bind, get_self. cbn.
  by rewrite bool_decide_eq_true_2.
Qed.

Lemma encode_Ok_inv (x : Tensor) (st st1 : machine) :
  registered_layers (self st) ≠ ∅ →
  encode x st = (st1, Ok tt) →
  ∃ st' encs,
    forward x (elements (registered_layers (self st))) true st = (st', Ok encs) ∧
    st1 = with_cache st'
            (dict (zip ((λ layer, (layer, TensorKey x)) <$>
                          elements (registered_layers (self st))) encs)).
Proof.
  intros Hne. rewrite encode_unfold by done.
  destruct (forward x _ true st) as [st' [encs|e]]; [|done].
  intros [= <-]. by exists st', encs.
Qed.

Lemma dict_keys_lookup (storage : gmap (string * Key) Tensor) (k : Key)
    (ls : list string) (encs : list Tensor) (l : string) (k' : Key) :
  Forall2 (λ l t, storage !! (l, k) = Some t) ls encs →
  dict (zip ((λ layer, (layer, k)) <$> ls) encs) !! (l, k') =
  if decide (k' = k ∧ l ∈ ls) then storage !! (l, k) else None.
Proof.
  intros Hencs. unfold dict.
  rewrite (dict_zip_lookup (λ l, storage !! (l, k))) by done.
  by rewrite lookup_empty.
Qed.

Lemma forward_Raise_self (x : Tensor) (layers : list string) (store : bool)
    (st st' : machine) (e : error) :
  forward x layers store st = (st', Raise e) → self st' = self st.
Proof.
  destruct (forward_cases x layers store st)
    as [(_ & ts & _ & ->)|[(m & _ & _ & ->)|(d & _ & _ & [(ex & _ & ->)|(outs & ts & _ & _ & ->)])]];
    by intros [= <- <-].
Qed.

(** X14: a call of [encode] that raises leaves the encoder, its cache
    included, as it was; it raises the unknown-layer error only for a
    registered layer that is no stage name any more and is not cached for
    this input, and otherwise the error of a stage. *)
Theorem encode_raises_unchanged (x : Tensor) (st st' : machine) (e : error) :
  encode x st = (st', Raise e) →
  self st' = self st ∧
  ((∃ m, e = UnknownLayerError m ∧ m ∈ registered_layers (self st) ∧
         (m ∉ children_names (self st)) ∧
         _cache (self st) !! (m, TensorKey x) = None) ∨
   (∃ ex, e = Raised ex)).
Proof.
  destruct (decide (registered_layers (self st) = ∅)) as [Hempty|Hne].
  { by rewrite encode_empty. }
  rewrite encode_unfold by done.
  destruct (forward_cases x (elements (registered_layers (self st))) true st)
    as [(_ & ts & _ & ->)|[(m & Hm & Hout & ->)|(d & _ & _ & [(ex & _ & ->)|(outs & ts & _ & _ & ->)])]];
    intros [= <- <-].
  - split; [done|]. left. exists m.
    apply diff_layers_of_spec in Hm as [Hm%elem_of_elements Hnone]. done.
  - split; [done|]. right. by eexists.
Qed.

(** X15: after a call of [encode] that returned, every registered layer
    is cached for this input: a second [encode] of the same input calls no
    stage and leaves everything as it is, and the [SingleLayerEncoder] of
    a registered layer answers from the cache, without calling a stage. *)
Theorem encode_then_cached (x : Tensor) (st st1 : machine) :
  encode x st = (st1, Ok tt) →
  encode x st1 = (st1, Ok tt) ∧
  ∀ l, l ∈ registered_layers (self st) →
       ∃ t, _cache (self st1) !! (l, TensorKey x) = Some t ∧
            SingleLayerEncoder_forward l x st1 = (st1, Ok t).
Proof.
  intros Hencode.
  destruct (decide (registered_layers (self st) = ∅)) as [Hempty|Hne].
  { rewrite encode_empty in Hencode by done. injection Hencode as <-.
    split; [by apply encode_empty|]. intros l Hl. rewrite Hempty in Hl.
    by apply not_elem_of_empty in Hl. }
  destruct (encode_Ok_inv x st st1 Hne Hencode) as (st' & encs & Hfwd & ->).
  pose proof (forward_shape x (elements (registered_layers (self st))) true st)
    as (_ & Hregs & _).
  rewrite Hfwd in Hregs. cbn [fst] in Hregs.
  apply forward_Ok_lookups in Hfwd as (storage & Hencs & _).
  set (keys := (λ layer, (layer, TensorKey x)) <$> elements (registered_layers (self st))).
  set (st1 := with_cache st' (dict (zip keys encs))).
  assert (Hcache : ∀ l, l ∈ elements (registered_layers (self st)) →
            _cache (self st1) !! (l, TensorKey x) = storage !! (l, TensorKey x)).
  { intros l Hl. cbn [st1 with_cache self _cache]. unfold keys.
    rewrite (dict_keys_lookup storage) by done. by rewrite decide_True. }
  assert (Hencs1 : Forall2 (λ l t, _cache (self st1) !! (l, TensorKey x) = Some t)
                           (elements (registered_layers (self st))) encs).
  { apply Forall2_same_length_lookup. split; [by eapply Forall2_length|].
    intros i l t Hl Ht. rewrite Hcache by by eapply list_elem_of_lookup_2.
    exact (Forall2_lookup_lr _ _ _ _ _ _ Hencs Hl Ht). }
  assert (Hsome : ∀ l, l ∈ elements (registered_layers (self st)) →
            is_Some (_cache (self st1) !! (l, TensorKey x))).
  { intros l [i Hi]%list_elem_of_lookup_1.
    destruct (Forall2_lookup_l _ _ _ _ _ Hencs1 Hi) as (t & _ & Ht). by eexists. }
  assert (Hregs1 : registered_layers (self st1) = registered_layers (self st)) by done.
  split.
  - rewrite encode_unfold by by rewrite Hregs1.
    rewrite Hregs1, forward_hit by by apply diff_layers_of_empty.
    by rewrite (mapM_getitem_Ok _ _ _ encs).
  - intros l Hl%elem_of_elements. destruct (Hsome l Hl) as [t Ht].
    exists t. split; [done|].
    rewrite SingleLayerEncoder_forward_unfold, forward_hit; last first.
    { apply diff_layers_of_empty. by intros n ->%list_elem_of_singleton. }
    rewrite (mapM_getitem_Ok _ _ _ [t]); [done|]. by repeat constructor.
Qed.

(** ** Sequences of calls *)

Lemma SingleLayerEncoder_forward_state (layer : string) (x : Tensor) (st : machine) :
  (SingleLayerEncoder_forward layer x st).1 = (forward x [layer] false st).1.
Proof.
  rewrite SingleLayerEncoder_forward_unfold.
  by destruct (forward x [layer] false st) as [st' [encs|e]].
Qed.

Lemma extract_single_layer_encoder_spec (layer : string) (st : machine) :
  extract_single_layer_encoder layer st =
  if decide (layer ∈ children_names (self st))
  then (Machine (Build_encoder (_modules (self st))
                   ({[layer]} ∪ registered_layers (self st)) (_cache (self st)))
                (called st), Ok layer)
  else (st, Raise (UnknownLayerError layer)).
Proof.
  unfold extract_single_layer_encoder, mbind, M_bind, get_self, lift.
  destruct (decide (layer ∈ children_names (self st))) as [Hin|Hout].
  - by rewrite verify_layer_Ok.
  - by rewrite verify_layer_Raise.
Qed.

Lemma encode_state (x : Tensor) (st : machine) :
  (encode x st).1 = (forward x (elements (registered_layers (self st))) true st).1 ∨
  ∃ st' encs,
    forward x (elements (registered_layers (self st))) true st = (st', Ok encs) ∧
    (encode x st).1 =
    with_cache st' (dict (zip ((λ layer, (layer, TensorKey x)) <$>
                                 elements (registered_layers (self st))) encs)).
Proof.
  destruct (decide (registered_layers (self st) = ∅)) as [Hempty|Hne].
  - left. rewrite encode_empty by done. rewrite Hempty, elements_empty.
    rewrite forward_hit; [done|]. apply diff_layers_of_empty.
    by intros n ?%elem_of_nil.
  - rewrite encode_unfold by done.
    destruct (forward x _ true st) as [st' [encs|e]]; [|by left].
    right. by exists st', encs.
Qed.

Lemma run_shape (calls : list method_call) (st : machine) :
  NoDup (children_names (self st)) →
  let st' := run calls st in
  NoDup (children_names (self st')) ∧
  (∃ n, _modules (self st') = take n (_modules (self st))) ∧
  registered_layers (self st) ⊆ registered_layers (self st') ∧
  ∃ more, called st' = called st ++ more.
Proof.
  cbv zeta. revert st. induction calls as [|c calls IH]; intros st Hnd.
  { split_and!; [done| |done|].
    - exists (length (_modules (self st))). by rewrite firstn_all.
    - exists []. by rewrite app_nil_r. }
  assert (Hstep : NoDup (children_names (self (exec c st))) ∧
                  (∃ n, _modules (self (exec c st)) = take n (_modules (self st))) ∧
                  registered_layers (self st) ⊆ registered_layers (self (exec c st)) ∧
                  ∃ more, called (exec c st) = called st ++ more).
  { assert (Hsame : ∀ st1 : machine,
              _modules (self st1) = _modules (self st) →
              NoDup (children_names (self st1)) ∧
              ∃ n, _modules (self st1) = take n (_modules (self st))).
    { intros st1 Hmods. split.
      - unfold children_names, named_children in *. by rewrite Hmods.
      - exists (length (_modules (self st))). by rewrite firstn_all. }
    assert (Hforward : ∀ x layers store,
              let st1 := (forward x layers store st).1 in
              (NoDup (children_names (self st1)) ∧
               ∃ n, _modules (self st1) = take n (_modules (self st))) ∧
              registered_layers (self st) ⊆ registered_layers (self st1) ∧
              ∃ more, called st1 = called st ++ more).
    { intros x layers store.
      destruct (forward_shape x layers store st) as (Hmods & Hregs & n & Hlog).
      cbv zeta. split; [by apply Hsame|]. split; [by rewrite Hregs|]. by eexists. }
    destruct c as [x layers store|layer x|layer|layer|x| |layers]; cbn [exec].
    - destruct (Hforward x layers store) as ([? ?] & ? & ?). done.
    - rewrite SingleLayerEncoder_forward_state.
      destruct (Hforward x [layer] false) as ([? ?] & ? & ?). done.
    - rewrite extract_single_layer_encoder_spec. case_decide; cbn [fst].
      + destruct (Hsame (Machine (Build_encoder (_modules (self st))
                           ({[layer]} ∪ registered_layers (self st)) (_cache (self st)))
                           (called st))) as [? ?]; [done|].
        split_and!; [done|done|cbn; apply union_subseteq_r|]. exists []. by rewrite app_nil_r.
      + destruct (Hsame st) as [? ?]; [done|].
        split_and!; [done..|]. exists []. by rewrite app_nil_r.
    - unfold getitem_layer. rewrite extract_single_layer_encoder_spec.
      case_decide; cbn [fst].
      + destruct (Hsame (Machine (Build_encoder (_modules (self st))
                           ({[layer]} ∪ registered_layers (self st)) (_cache (self st)))
                           (called st))) as [? ?]; [done|].
        split_and!; [done|done|cbn; apply union_subseteq_r|]. exists []. by rewrite app_nil_r.
      + destruct (Hsame st) as [? ?]; [done|].
        split_and!; [done..|]. exists []. by rewrite app_nil_r.
    - destruct (Hforward x (elements (registered_layers (self st))) true)
        as ([? ?] & ? & ?).
      destruct (encode_state x st) as [->|(st' & encs & Hfwd & ->)]; [done|].
      rewrite Hfwd in *. cbn [fst] in *. done.
    - destruct (Hsame st) as [? ?]; [done|].
      split_and!; [done..|]. exists []. by rewrite app_nil_r.
    - destruct (trim_cases layers st Hnd)
        as [[_ ->]|[(n & _ & _ & ->)|(d & _ & _ & ->)]]; cbn [fst].
      + destruct (Hsame st) as [? ?]; [done|].
        split_and!; [done..|]. exists []. by rewrite app_nil_r.
      + destruct (Hsame st) as [? ?]; [done|].
        split_and!; [done..|]. exists []. by rewrite app_nil_r.
      + split_and!; [| |done|].
        * unfold children_names at 1, named_children. cbn [self _modules].
          by apply NoDup_upto.
        * by eexists.
        * exists []. by rewrite app_nil_r. }
  destruct Hstep as (Hnd1 & [n1 Hmods1] & Hregs1 & [more1 Hlog1]).
  destruct (IH (exec c st) Hnd1) as (Hnd2 & [n2 Hmods2] & Hregs2 & [more2 Hlog2]).
  cbn [run foldl]. fold (run calls (exec c st)).
  split_and!; [done| | |].
  - exists (min n2 n1). by rewrite Hmods2, Hmods1, take_take.
  - by etrans.
  - exists (more1 ++ more2). by rewrite Hlog2, Hlog1, app_assoc.
Qed.

(** X16: whatever is called, in whatever order and with whatever
    outcome, the container only loses stages at its end, the registered
    layers only grow, and the log of stage calls only grows. *)
Theorem run_monotone (calls : list method_call) (st : machine) :
  NoDup (children_names (self st)) →
  let st' := run calls st in
  NoDup (children_names (self st')) ∧
  (∃ n, _modules (self st') = take n (_modules (self st))) ∧
  registered_layers (self st) ⊆ registered_layers (self st') ∧
  ∃ more, called st' = called st ++ more.
Proof. apply run_shape. Qed.

(** ** The cache over sequences of calls *)

Lemma consistent_names (modules : list (string * Module)) (st : machine) :
  consistent modules st → NoDup (children_names (self st)).
Proof.
  intros (Hnd & [n Hmods] & _). unfold children_names, named_children.
  rewrite Hmods, fmap_take. rewrite <- (take_drop n modules.*1) in Hnd.
  by apply NoDup_app in Hnd as [? _].
Qed.

Lemma consistent_activation (modules : list (string * Module)) (st : machine)
    (l : string) (x : Tensor) :
  consistent modules st → l ∈ children_names (self st) →
  activation (self st) l x = activation (Build_encoder modules ∅ ∅) l x.
Proof.
  intros (_ & [n Hmods] & _) Hl. destruct st as [[mods registered cache] log].
  cbn [self _modules] in *. subst mods. apply activation_take.
  by unfold children_names, named_children in Hl.
Qed.

Lemma store_outputs_coherent (modules : list (string * Module)) (st : machine)
    (d : string) (x : Tensor) (outs : list (string * Tensor)) :
  consistent modules st →
  chain_outputs call (upto (self st) d) x = inr outs →
  coherent modules (store_outputs (TensorKey x) (_cache (self st)) outs).
Proof.
  intros Hcons Houts l k t Hlook.
  destruct (decide (k = TensorKey x ∧ l ∈ outs.*1)) as [[-> Hl]|Hno].
  - rewrite (chain_outputs_names _ _ _ _ Houts) in Hl.
    destruct (stored_activation (self st) d l x (TensorKey x) (_cache (self st)) outs)
      as [Hstored _]; [by eapply consistent_names|done|done|].
    exists x. split; [done|].
    rewrite <- (consistent_activation modules st) by (done || by apply elem_of_upto in Hl as [? _]).
    congruence.
  - rewrite store_outputs_other in Hlook.
    + destruct Hcons as (_ & _ & Hcoh). by apply Hcoh.
    + destruct (decide (k = TensorKey x)); [right|by left]. naive_solver.
Qed.

Lemma consistent_with (modules : list (string * Module)) (st st1 : machine) :
  consistent modules st →
  _modules (self st1) = _modules (self st) →
  coherent modules (_cache (self st1)) →
  consistent modules st1.
Proof.
  intros (Hnd & [n Hmods] & _) Hsame Hcoh. split_and!; [done| |done].
  exists n. by rewrite Hsame.
Qed.

Lemma forward_consistent (modules : list (string * Module)) (x : Tensor)
    (layers : list string) (store : bool) (st : machine) :
  consistent modules st →
  consistent modules (forward x layers store st).1 ∧
  ∀ st' ts, forward x layers store st = (st', Ok ts) →
            ∃ storage, coherent modules storage ∧
                       Forall2 (λ l t, storage !! (l, TensorKey x) = Some t) layers ts.
Proof.
  intros Hcons. pose proof Hcons as (_ & _ & Hcoh).
  destruct (forward_cases x layers store st)
    as [(_ & ts & Hts & ->)|[(m & _ & _ & ->)|(d & _ & _ & [(ex & _ & ->)|(outs & ts & Houts & Hts & ->)])]];
    cbn [fst].
  - split; [done|]. intros st' ts' [= <- <-]. by exists (_cache (self st)).
  - split; [done|]. by intros st' ts' [=].
  - split; [by apply (consistent_with modules st)|]. by intros st' ts' [=].
  - pose proof (store_outputs_coherent modules st d x outs Hcons Houts) as Hcoh'.
    split.
    + apply (consistent_with modules st); [done|by destruct store|by destruct store].
    + intros st' ts' [= <- <-]. by eexists.
Qed.

Lemma dict_coherent (modules : list (string * Module))
    (storage : gmap (string * Key) Tensor) (k : Key) (ls : list string)
    (encs : list Tensor) :
  coherent modules storage →
  Forall2 (λ l t, storage !! (l, k) = Some t) ls encs →
  coherent modules (dict (zip ((λ layer, (layer, k)) <$> ls) encs)).
Proof.
  intros Hcoh Hencs l k' t. rewrite (dict_keys_lookup storage) by done.
  case_decide as Hin; [|done]. destruct Hin as [-> _]. apply Hcoh.
Qed.

Lemma exec_consistent (modules : list (string * Module)) (c : method_call) (st : machine) :
  consistent modules st → consistent modules (exec c st).
Proof.
  intros Hcons. pose proof Hcons as (Hnd & [n Hmods] & Hcoh).
  destruct c as [x layers store|layer x|layer|layer|x| |layers]; cbn [exec].
  - by apply forward_consistent.
  - rewrite SingleLayerEncoder_forward_state. by apply forward_consistent.
  - rewrite extract_single_layer_encoder_spec. case_decide; [|done].
    by apply (consistent_with modules st).
  - unfold getitem_layer. rewrite extract_single_layer_encoder_spec.
    case_decide; [|done]. by apply (consistent_with modules st).
  - destruct (forward_consistent modules x (elements (registered_layers (self st)))
                true st Hcons) as [Hcons' Hok].
    destruct (encode_state x st) as [->|(st' & encs & Hfwd & ->)]; [done|].
    rewrite Hfwd in Hcons'. cbn [fst] in Hcons'.
    destruct (Hok st' encs Hfwd) as (storage & Hcoh' & Hencs).
    apply (consistent_with modules st'); [done|done|].
    by apply (dict_coherent modules storage).
  - apply (consistent_with modules st); [done|done|]. by intros l k t.
  - destruct (trim_cases layers st (consistent_names modules st Hcons))
      as [[_ ->]|[(m & _ & _ & ->)|(d & _ & _ & ->)]]; cbn [fst]; [done|done|].
    split_and!; [done| |done].
    cbn [self _modules]. unfold upto. rewrite Hmods, take_take. by eexists.
Qed.

Lemma init_consistent (modules : list (string * Module)) :
  NoDup modules.*1 → consistent modules (MultiLayerEncoder_init modules).
Proof.
  intros Hnd. split_and!; [done| |].
  - exists (length modules). cbn. by rewrite firstn_all.
  - by intros l k t.
Qed.

Lemma run_consistent (modules : list (string * Module)) (calls : list method_call)
    (st : machine) :
  consistent modules st → consistent modules (run calls st).
Proof.
  revert st. induction calls as [|c calls IH]; intros st Hcons; [done|].
  cbn [run foldl]. fold (run calls (exec c st)). by apply IH, exec_consistent.
Qed.

(** X17: after any sequence of calls on an encoder built from [modules],
    every entry of the cache is the activation, through [modules], of its
    layer for a tensor of its key; so, as long as different tensors have
    different keys, whatever [forward] returns is the activations of the
    requested layers for its input, cached and trimmed or not. *)
Theorem forward_returns_activations (modules : list (string * Module))
    (calls : list method_call) (x : Tensor) (layers : list string) (store : bool)
    (st' : machine) (ts : list Tensor) :
  NoDup modules.*1 →
  (∀ x y, TensorKey x = TensorKey y → x = y) →
  let st := run calls (MultiLayerEncoder_init modules) in
  coherent modules (_cache (self st)) ∧
  (forward x layers store st = (st', Ok ts) →
   Forall2 (λ l t, activation (self (MultiLayerEncoder_init modules)) l x = Some t)
           layers ts).
Proof.
  intros Hnd Hinj. cbv zeta.
  pose proof (run_consistent modules calls _ (init_consistent modules Hnd)) as Hcons.
  split; [by destruct Hcons as (_ & _ & ?)|].
  intros Hfwd.
  destruct (forward_consistent modules x layers store _ Hcons) as [_ Hok].
  destruct (Hok st' ts Hfwd) as (storage & Hcoh & Hts).
  apply Forall2_same_length_lookup. split; [by eapply Forall2_length|].
  intros i l t Hl Ht.
  pose proof (Forall2_lookup_lr _ _ _ _ _ _ Hts Hl Ht) as Hlook. cbn in Hlook.
  destruct (Hcoh l (TensorKey x) t Hlook) as (x' & Hkey & Hact).
  by rewrite <- (Hinj x' x Hkey).
Qed.

(** ** The registered layers over sequences of calls *)

Lemma exec_registered (c : method_call) (st : machine) :
  NoDup (children_names (self st)) →
  keeps_registered c →
  (∀ l, l ∈ registered_layers (self st) → l ∈ children_names (self st)) →
  ∀ l, l ∈ registered_layers (self (exec c st)) → l ∈ children_names (self (exec c st)).
Proof.
  intros Hnd Hkeep Hinv.
  assert (Hforward : ∀ x layers store l,
            l ∈ registered_layers (self (forward x layers store st).1) →
            l ∈ children_names (self (forward x layers store st).1)).
  { intros x layers store l.
    destruct (forward_shape x layers store st) as (Hmods & Hregs & _).
    unfold children_names, named_children. rewrite Hmods, Hregs. apply Hinv. }
  destruct c as [x layers store|layer x|layer|layer|x| |layers]; cbn [exec].
  - apply Hforward.
  - rewrite SingleLayerEncoder_forward_state. apply Hforward.
  - rewrite extract_single_layer_encoder_spec. case_decide; [|done].
    cbn. intros l [->%elem_of_singleton|Hl]%elem_of_union; [done|by apply Hinv].
  - unfold getitem_layer. rewrite extract_single_layer_encoder_spec.
    case_decide; [|done].
    cbn. intros l [->%elem_of_singleton|Hl]%elem_of_union; [done|by apply Hinv].
  - destruct (encode_state x st) as [->|(st' & encs & Hfwd & ->)]; [by apply Hforward|].
    specialize (Hforward x (elements (registered_layers (self st))) true).
    rewrite Hfwd in Hforward. done.
  - done.
  - destruct layers as [ls|]; [done|].
    destruct (trim_cases None st Hnd)
      as [[_ ->]|[(m & _ & _ & ->)|(d & _ & Hmax & ->)]]; cbn [fst]; [done|done|].
    intros l Hl. unfold children_names at 1, named_children. cbn [self _modules] in *.
    apply elem_of_upto. apply Hmax. by apply elem_of_elements.
Qed.

(** X18: as long as [trim] is only called without argument, every
    registered layer stays a stage name, whatever else is called; then
    [encode] raises nothing but the error of a stage, and [trim()] nothing
    but IndexError, when no layer is registered. *)
Theorem registered_layers_are_stages (modules : list (string * Module))
    (calls : list method_call) :
  NoDup modules.*1 → Forall keeps_registered calls →
  let st := run calls (MultiLayerEncoder_init modules) in
  (∀ l, l ∈ registered_layers (self st) → l ∈ children_names (self st)) ∧
  (∀ x st' e, encode x st = (st', Raise e) → ∃ ex, e = Raised ex) ∧
  (∀ st' e, trim None st = (st', Raise e) →
            e = IndexError ∧ registered_layers (self st) = ∅).
Proof.
  intros Hnd Hkeep. cbv zeta.
  assert (Hinv : ∀ st, NoDup (children_names (self st)) →
            (∀ l, l ∈ registered_layers (self st) → l ∈ children_names (self st)) →
            NoDup (children_names (self (run calls st))) ∧
            ∀ l, l ∈ registered_layers (self (run calls st)) →
                 l ∈ children_names (self (run calls st))).
  { induction Hkeep as [|c calls Hc _ IH]; intros st Hnd0 Hinv0; [done|].
    cbn [run foldl]. fold (run calls (exec c st)). apply IH.
    - by destruct (run_shape [c] st Hnd0) as [? _].
    - by apply exec_registered. }
  destruct (Hinv (MultiLayerEncoder_init modules)) as [Hnd' Hregs]; [done|done|].
  set (st := run calls (MultiLayerEncoder_init modules)) in *.
  split_and!; [done| |].
  - intros x st' e Hencode.
    destruct (decide (registered_layers (self st) = ∅)) as [Hempty|Hne].
    { by rewrite encode_empty in Hencode. }
    rewrite encode_unfold in Hencode by done.
    destruct (forward_cases x (elements (registered_layers (self st))) true st)
      as [(_ & ts & _ & Heq)|[(m & Hm & Hout & Heq)|(d & _ & _ & [(ex & _ & Heq)|(outs & ts & _ & _ & Heq)])]];
      rewrite Heq in Hencode; try discriminate Hencode.
    + exfalso. apply Hout, Hregs.
      by apply diff_layers_of_spec in Hm as [Hm%elem_of_elements _].
    + injection Hencode as _ <-. by eexists.
  - intros st' e Htrim.
    destruct (trim_cases None st Hnd')
      as [[Hnil Heq]|[(m & Hm & Hout & _)|(d & _ & _ & Heq)]].
    + rewrite Heq in Htrim. injection Htrim as _ <-. split; [done|].
      cbn in Hnil. by apply elements_empty_inv, leibniz_equiv in Hnil.
    + exfalso. apply Hout, Hregs. by apply elem_of_elements.
    + by rewrite Heq in Htrim.
Qed.

End encoder.

(** ** The cycle batch samplers *)

Section sampler_facts.
Import sampler.

Lemma cycle_next_spec (size k : nat) :
  0 < size →
  cycle_next size (cyclic size k) = Yield (cyclic size k) (cyclic size (S k)).
Proof.
  intros Hpos. unfold cycle_next, cyclic.
  rewrite decide_False by lia. f_equal.
  pose proof (Nat.mod_upper_bound k size ltac:(lia)) as Hlt.
  replace (S k) with (k + 1) by lia.
  rewrite <- Nat.Div0.add_mod_idemp_l.
  destruct (decide (S (k mod size) < size)) as [Hin|Hwrap].
  - rewrite (Nat.mod_small (k mod size + 1)) by lia. lia.
  - replace (k mod size + 1) with size by lia. by rewrite Nat.Div0.mod_same.
Qed.

Lemma cyclic_batch_S (size b k : nat) :
  cyclic_batch size (S b) k = cyclic size k :: cyclic_batch size b (S k).
Proof.
  unfold cyclic_batch. cbn. rewrite Nat.add_0_r. f_equal.
  rewrite <- fmap_S_seq, <- list_fmap_compose.
  apply list_fmap_ext. intros _ j _. cbn. f_equal. lia.
Qed.

Lemma nextn_spec (size b k : nat) :
  0 < size →
  nextn size b (cyclic size k) = Yield (cyclic_batch size b k) (cyclic size (k + b)).
Proof.
  intros Hpos. revert k. induction b as [|b IH]; intros k.
  - cbn. by rewrite Nat.add_0_r.
  - cbn [nextn]. rewrite cycle_next_spec, IH, cyclic_batch_S by done.
    do 2 f_equal. lia.
Qed.

Lemma cyclic_batches_from (size b k n : nat) :
  (λ i, cyclic_batch size b (k + i * b)) <$> seq 0 (S n) =
  cyclic_batch size b k :: ((λ i, cyclic_batch size b (k + b + i * b)) <$> seq 0 n).
Proof.
  cbn. rewrite Nat.add_0_r. f_equal.
  rewrite <- fmap_S_seq, <- list_fmap_compose.
  apply list_fmap_ext. intros _ i _. cbn. f_equal. lia.
Qed.

Lemma Infinite_pull (self : InfiniteCycleBatchSampler) (fuel k : nat) :
  let size := len (data_source self) in
  let b := range_len (batch_size self) in
  0 < size →
  pull (Infinite_next self) fuel (cyclic size k) =
  ((λ i, cyclic_batch size b (k + i * b)) <$> seq 0 fuel,
   Live (cyclic size (k + fuel * b))).
Proof.
  cbv zeta. intros Hpos. revert k. induction fuel as [|fuel IH]; intros k.
  - cbn. by rewrite Nat.add_0_r.
  - rewrite cyclic_batches_from. cbn [pull]. unfold Infinite_next at 1.
    rewrite nextn_spec, IH by done. do 3 f_equal. lia.
Qed.

Lemma Finite_pull (self : FiniteCycleBatchSampler) (rounds fuel k : nat) :
  let size := len (data_source (base self)) in
  let b := range_len (batch_size (base self)) in
  0 < size → rounds < fuel →
  pull (Finite_next self) fuel (rounds, cyclic size k) =
  ((λ i, cyclic_batch size b (k + i * b)) <$> seq 0 rounds, Exhausted).
Proof.
  cbv zeta. intros Hpos. revert fuel k.
  induction rounds as [|rounds IH]; intros fuel k Hfuel.
  - destruct fuel as [|fuel]; [lia|]. done.
  - destruct fuel as [|fuel]; [lia|].
    rewrite cyclic_batches_from. cbn [pull]. unfold Finite_next at 1.
    cbn [fst snd]. unfold Infinite_next at 1.
    rewrite nextn_spec, IH by (done || lia). done.
Qed.

(** C9: the batches are runs of [batch_size] consecutive indices of the
    cyclic sequence 0, 1, ..., size-1, 0, ..., each batch going on where
    the one before ended.  The infinite sampler yields a batch at every
    call and never ends; for size 3 and batch size 2 its first four batches
    are (0,1), (2,0), (1,2), (0,1).  The finite sampler yields [num_batches]
    batches and then ends; for size 3, two batches of size 2 these are
    (0,1), (2,0), and its length is [num_batches]. *)
Theorem cycle_samplers (size : Sized) (batch_size num_batches : Z) (fuel : nat) :
  let infinite := {| data_source := size; batch_size := batch_size |} in
  let finite := {| base := infinite; num_batches := num_batches |} in
  let b := range_len batch_size in
  (0 < len size →
   pull (Infinite_next infinite) fuel (Infinite_iter infinite) =
   (cyclic_batches (len size) b fuel, Live (cyclic (len size) (fuel * b))) ∧
   (range_len num_batches < fuel →
    pull (Finite_next finite) fuel (Finite_iter finite) =
    (cyclic_batches (len size) b (range_len num_batches), Exhausted))) ∧
  Finite_len finite = num_batches ∧
  (pull (Infinite_next {| data_source := 3; batch_size := 2 |}) 4
        (Infinite_iter {| data_source := 3; batch_size := 2 |})).1 =
  [[0; 1]; [2; 0]; [1; 2]; [0; 1]] ∧
  pull (Finite_next {| base := {| data_source := 3; batch_size := 2 |};
                       num_batches := 2 |}) 3
       (Finite_iter {| base := {| data_source := 3; batch_size := 2 |};
                       num_batches := 2 |}) =
  ([[0; 1]; [2; 0]], Exhausted) ∧
  Finite_len {| base := {| data_source := 3; batch_size := 2 |}; num_batches := 2 |} = 2%Z.
Proof.
  cbv zeta. split_and!; [|done..].
  intros Hpos. split.
  - pose proof (Infinite_pull {| data_source := size; batch_size := batch_size |} fuel 0 Hpos)
      as Hpull.
    cbn [data_source sampler.batch_size] in Hpull.
    unfold cyclic at 1 in Hpull. rewrite Nat.Div0.mod_0_l in Hpull. exact Hpull.
  - intros Hfuel.
    pose proof (Finite_pull {| base := {| data_source := size; batch_size := batch_size |};
                               num_batches := num_batches |}
                  (range_len num_batches) fuel 0 Hpos Hfuel) as Hpull.
    cbn [base data_source sampler.batch_size] in Hpull.
    unfold cyclic at 1 in Hpull. rewrite Nat.Div0.mod_0_l in Hpull. exact Hpull.
Qed.

(** C10, amended: the constructor of the infinite sampler checks nothing:
    it succeeds for every data source, the empty one included, and stores
    the data source and the batch size as they are given. *)
Theorem InfiniteCycleBatchSampler_init_accepts (data_source : Sized) (batch_size : Z) :
  InfiniteCycleBatchSampler_init data_source batch_size =
  Some {| data_source := data_source; batch_size := batch_size |}.
Proof. done. Qed.

Lemma Infinite_batches (size : Sized) (batch_size : Z) (fuel : nat) :
  0 < len size →
  (pull (Infinite_next {| data_source := size; batch_size := batch_size |}) fuel
        (Infinite_iter {| data_source := size; batch_size := batch_size |})).1 =
  cyclic_batches (len size) (range_len batch_size) fuel.
Proof.
  intros Hpos.
  pose proof (Infinite_pull {| data_source := size; batch_size := batch_size |} fuel 0 Hpos)
    as Hpull.
  cbn [data_source sampler.batch_size] in Hpull.
  unfold cyclic at 1 in Hpull. rewrite Nat.Div0.mod_0_l in Hpull.
  unfold Infinite_iter. by rewrite Hpull.
Qed.

(** X19: every batch of the infinite sampler over a non-empty data source
    has exactly [batch_size] indices, none for a non-positive
    [batch_size], and every index is a valid index of the data source. *)
Theorem Infinite_batch_shape (size : Sized) (batch_size : Z) (fuel : nat) :
  0 < len size →
  Forall (λ batch, length batch = range_len batch_size ∧
                   Forall (λ i, i < len size) batch)
         (pull (Infinite_next {| data_source := size; batch_size := batch_size |}) fuel
               (Infinite_iter {| data_source := size; batch_size := batch_size |})).1.
Proof.
  intros Hpos. rewrite Infinite_batches by done.
  unfold cyclic_batches. apply Forall_fmap, Forall_forall. intros i _. cbn.
  unfold cyclic_batch. split.
  - by rewrite length_fmap, length_seq.
  - apply Forall_fmap, Forall_forall. intros j _. cbn. unfold cyclic.
    apply Nat.mod_upper_bound. lia.
Qed.

Lemma concat_cyclic_batches (size b k n : nat) :
  concat ((λ i, cyclic_batch size b (k + i * b)) <$> seq 0 n) =
  (λ j, cyclic size (k + j)) <$> seq 0 (n * b).
Proof.
  revert k. induction n as [|n IH]; intros k; [done|].
  rewrite cyclic_batches_from. cbn [concat]. rewrite IH.
  replace (S n * b) with (b + n * b) by lia.
  rewrite seq_app, fmap_app. f_equal.
  replace (0 + b) with (b + 0) by lia.
  rewrite <- (fmap_add_seq b 0), <- list_fmap_compose.
  apply list_fmap_ext. intros _ j _. cbn. f_equal. lia.
Qed.

(** X20: the batches of the infinite sampler, put one after the other,
    are the cyclic sequence 0, 1, ..., size-1, 0, ...: no index is left
    out or repeated at a batch boundary. *)
Theorem Infinite_batches_concat (size : Sized) (batch_size : Z) (fuel : nat) :
  0 < len size →
  concat (pull (Infinite_next {| data_source := size; batch_size := batch_size |}) fuel
               (Infinite_iter {| data_source := size; batch_size := batch_size |})).1 =
  cyclic (len size) <$> seq 0 (fuel * range_len batch_size).
Proof.
  intros Hpos. rewrite Infinite_batches by done. unfold cyclic_batches.
  exact (concat_cyclic_batches (len size) (range_len batch_size) 0 fuel).
Qed.

(** X21: the batches of the infinite sampler repeat after [size] batches:
    batch [i + size] is batch [i]. *)
Theorem Infinite_batches_periodic (size : Sized) (batch_size : Z) (fuel i : nat) :
  0 < len size → i + len size < fuel →
  let batches :=
    (pull (Infinite_next {| data_source := size; batch_size := batch_size |}) fuel
          (Infinite_iter {| data_source := size; batch_size := batch_size |})).1 in
  batches !! (i + len size) = batches !! i ∧ is_Some (batches !! i).
Proof.
  intros Hpos Hfuel. cbv zeta. rewrite Infinite_batches by done.
  unfold cyclic_batches. rewrite !list_lookup_fmap.
  rewrite !lookup_seq_lt by lia. cbn. split; [|by eexists].
  f_equal. unfold cyclic_batch. apply list_fmap_ext. intros _ j _. unfold cyclic.
  replace ((i + len size) * range_len batch_size + j)
    with (i * range_len batch_size + j + range_len batch_size * len size) by lia.
  by rewrite Nat.Div0.mod_add.
Qed.

Lemma Finite_pull_live (self : FiniteCycleBatchSampler) (rounds fuel k : nat) :
  let size := len (data_source (base self)) in
  let b := range_len (batch_size (base self)) in
  0 < size → fuel ≤ rounds →
  pull (Finite_next self) fuel (rounds, cyclic size k) =
  ((λ i, cyclic_batch size b (k + i * b)) <$> seq 0 fuel,
   Live (rounds - fuel, cyclic size (k + fuel * b))).
Proof.
  cbv zeta. intros Hpos. revert rounds k.
  induction fuel as [|fuel IH]; intros rounds k Hfuel.
  - cbn. by rewrite Nat.sub_0_r, Nat.add_0_r.
  - destruct rounds as [|rounds]; [lia|].
    rewrite cyclic_batches_from. cbn [pull]. unfold Finite_next at 1.
    cbn [fst snd]. unfold Infinite_next at 1.
    rewrite nextn_spec, IH by (done || lia). cbn [Nat.sub].
    do 4 f_equal. lia.
Qed.

(** X22: the finite sampler yields what the infinite one yields, cut
    after [num_batches] batches, and it ends exactly when asked for one
    batch more than that. *)
Theorem Finite_cuts_Infinite (size : Sized) (batch_size num_batches : Z) (fuel : nat) :
  0 < len size →
  let infinite := {| data_source := size; batch_size := batch_size |} in
  let finite := {| base := infinite; num_batches := num_batches |} in
  (pull (Finite_next finite) fuel (Finite_iter finite)).1 =
  take (range_len num_batches) (pull (Infinite_next infinite) fuel (Infinite_iter infinite)).1 ∧
  ((pull (Finite_next finite) fuel (Finite_iter finite)).2 = Exhausted ↔
   range_len num_batches < fuel).
Proof.
  intros Hpos. cbv zeta. rewrite Infinite_batches by done.
  unfold Finite_iter, Infinite_iter. cbn [base sampler.num_batches].
  set (finite := {| base := {| data_source := size; batch_size := batch_size |};
                    num_batches := num_batches |}).
  destruct (decide (range_len num_batches < fuel)) as [Hlt|Hge].
  - pose proof (Finite_pull finite (range_len num_batches) fuel 0 Hpos Hlt) as Hpull.
    cbn [finite base data_source sampler.batch_size] in Hpull.
    unfold cyclic at 1 in Hpull. rewrite Nat.Div0.mod_0_l in Hpull.
    rewrite Hpull. cbn [fst snd]. split; [|done].
    unfold cyclic_batches. rewrite <- fmap_take, take_seq. f_equal. f_equal. lia.
  - pose proof (Finite_pull_live finite (range_len num_batches) fuel 0 Hpos
                  ltac:(lia)) as Hpull.
    cbn [finite base data_source sampler.batch_size] in Hpull.
    unfold cyclic at 1 in Hpull. rewrite Nat.Div0.mod_0_l in Hpull.
    rewrite Hpull. cbn [fst snd]. split; [|done].
    unfold cyclic_batches. rewrite take_ge; [done|].
    rewrite length_fmap, length_seq. lia.
Qed.

(** X23: non-positive counts mean none: with a non-positive [batch_size]
    every batch of the infinite sampler is the empty tuple, and with a
    non-positive [num_batches] the finite sampler ends at once; both
    whatever the data source, an empty one included, since the cycle is
    never asked for an index. *)
Theorem nonpositive_counts (size : Sized) (batch_size num_batches : Z) (fuel pos : nat) :
  ((batch_size ≤ 0)%Z →
   pull (Infinite_next {| data_source := size; batch_size := batch_size |}) fuel pos =
   (replicate fuel [], Live pos)) ∧
  ((num_batches ≤ 0)%Z →
   pull (Finite_next {| base := {| data_source := size; batch_size := batch_size |};
                        num_batches := num_batches |}) (S fuel)
        (Finite_iter {| base := {| data_source := size; batch_size := batch_size |};
                        num_batches := num_batches |}) =
   ([], Exhausted)).
Proof.
  split.
  - intros Hle. induction fuel as [|fuel IH]; [done|].
    cbn [pull replicate]. unfold Infinite_next at 1. cbn [data_source sampler.batch_size].
    unfold range_len. rewrite Z2Nat.nonpos by done. cbn [nextn].
    by rewrite IH.
  - intros Hle. cbn [pull]. unfold Finite_next, Finite_iter.
    cbn [base sampler.num_batches fst]. unfold range_len.
    by rewrite Z2Nat.nonpos.
Qed.

End sampler_facts.

(** ** A small encoder to run the methods on

    A tensor is the list of the names it went through, its key is the
    tensor itself, a stage appends its name, and a stage without name
    raises. *)

Module demo.

Definition Tensor : Type := list string.

Definition TensorKey (t : Tensor) : list string := t.

Definition call (module : option string) (x : Tensor) : string + Tensor :=
  match module with
  | Some name => inr (x ++ [name])
  | None => inl "stage failed"
  end.

Definition propagate (module : option string) (guide : Tensor) (method : string)
    (allow_empty : bool) : string + Tensor :=
  match module with
  | Some name => inr (guide ++ [name])
  | None => inl "no guide"
  end.

Definition modules : list (string * option string) :=
  [("a", Some "a"); ("b", Some "b"); ("c", Some "c")].

Definition encoder : @MultiLayerEncoder Tensor (list string) (option string) _ _ :=
  Build_encoder modules ∅ ∅.

Definition fresh : @machine Tensor (list string) (option string) _ _ :=
  Machine encoder [].

Definition x : Tensor := ["x"].
Definition y : Tensor := ["y"].

(** The machine after [forward(x, ["c"], store=True)]. *)
Definition stored : @machine Tensor (list string) (option string) _ _ :=
  (forward TensorKey call x ["c"] true fresh).1.

(** ... and after [trim(["b"])] then. *)
Definition trimmed : @machine Tensor (list string) (option string) _ _ :=
  (@trim Tensor (list string) (option string) string _ _ (Some ["b"]) stored).1.

(** The fresh machine after [extract_single_layer_encoder("b")] and
    [forward(y, ["c"], store=True)]. *)
Definition busy : @machine Tensor (list string) (option string) _ _ :=
  (forward TensorKey call y ["c"] true
     (@extract_single_layer_encoder Tensor (list string) (option string) string _ _
        "b" fresh).1).1.

(** An encoder whose second stage raises. *)
Definition broken : @machine Tensor (list string) (option string) _ _ :=
  Machine (Build_encoder [("a", Some "a"); ("bad", None); ("c", Some "c")] ∅ ∅) [].

(** A sequence of calls on the fresh encoder. *)
Definition calls : list (@method_call Tensor) :=
  [ExtractSingleLayerEncoder "b"; Forward y ["c"] true; Encode x; Trim None;
   SingleForward "b" x; ClearCache; GetItem "a"; Forward x ["b"; "a"] true].

(** The broken encoder with its last layer registered. *)
Definition broken_c : @machine Tensor (list string) (option string) _ _ :=
  (@extract_single_layer_encoder Tensor (list string) (option string) string _ _
     "c" broken).1.

(** The busy machine after [encode(x)]. *)
Definition encoded : @machine Tensor (list string) (option string) _ _ :=
  (encode TensorKey call x busy).1.

(** The fresh machine after [calls]. *)
Definition later : @machine Tensor (list string) (option string) _ _ :=
  run TensorKey call calls (MultiLayerEncoder_init modules).

End demo.

(** ** The properties on the small encoder *)

Lemma forward_runs_once_and_reuses_witness :
  forward demo.TensorKey demo.call demo.x ["c"] false demo.fresh =
  (Machine demo.encoder ["a"; "b"; "c"], Ok [["x"; "a"; "b"; "c"]]) ∧
  ∃ ts, Forall2 (λ n t, _cache (self demo.stored) !! (n, demo.TensorKey demo.x) = Some t)
                ["c"; "a"] ts ∧
        forward demo.TensorKey demo.call demo.x ["c"; "a"] false demo.stored =
        (demo.stored, Ok ts).
Proof.
  destruct (forward_runs_once_and_reuses demo.TensorKey demo.call
              (Some "a") (Some "b") (Some "c") ∅ demo.x false []
              ["x"; "a"] ["x"; "a"; "b"] ["x"; "a"; "b"; "c"] demo.stored ["c"; "a"])
    as [Hrun Hhit].
  split.
  - exact (Hrun eq_refl eq_refl eq_refl).
  - apply Hhit. compute_done.
Defined.

Lemma encode_replaces_cache_witness :
  ∃ cache' log',
    encode demo.TensorKey demo.call demo.x demo.busy =
    (Machine (Build_encoder demo.modules {["b"]} cache') log', Ok tt) ∧
    ∀ l k', cache' !! (l, k') =
            if decide (k' = demo.x ∧ l ∈ ({["b"]} : gset string))
            then activation demo.call (self demo.busy) l demo.x else None.
Proof.
  destruct (encode_replaces_cache demo.TensorKey demo.call demo.x demo.busy)
    as [_ Hencode].
  apply Hencode; compute_done.
Defined.

Lemma trim_deletes_tail_witness :
  ∃ d, d ∈ ["b"] ∧
       @trim demo.Tensor _ _ string _ _ (Some ["b"]) demo.stored =
       (Machine (Build_encoder (upto (self demo.stored) d) ∅ (_cache (self demo.stored)))
                ["a"; "b"; "c"], Ok tt) ∧
       upto (self demo.stored) d = [("a", Some "a"); ("b", Some "b")] ∧
       ∃ m, forward demo.TensorKey demo.call demo.x ["c"] false
              (Machine (Build_encoder (upto (self demo.stored) d) ∅ ∅) []) =
            (Machine (Build_encoder (upto (self demo.stored) d) ∅ ∅) [],
             Raise (UnknownLayerError m)).
Proof.
  destruct (trim_deletes_tail demo.TensorKey demo.call (Some ["b"]) demo.stored)
    as (d & Hd & _ & Htrim & _ & Hab & Hforward); [compute_done..|].
  exists d. split; [exact Hd|]. split; [exact Htrim|].
  split; [by apply (Hab (Some "a") (Some "b") (Some "c"))|].
  apply (Hforward "c"); [compute_done| |compute_done..].
  apply list_elem_of_singleton in Hd. rewrite Hd. compute_done.
Defined.

Lemma forward_unknown_uncached_witness :
  forward demo.TensorKey demo.call demo.x ["z"] false demo.stored =
  (demo.stored, Raise (UnknownLayerError "z")).
Proof.
  apply forward_unknown_uncached; compute_done.
Defined.

Lemma forward_cached_unverified_witness :
  forward demo.TensorKey demo.call demo.x ["c"] false demo.trimmed =
  (demo.trimmed, Ok [["x"; "a"; "b"; "c"]]) ∧
  ("z" ∈ ["c"; "z"] ∧ _cache (self demo.trimmed) !! ("z", demo.TensorKey demo.x) = None ∧
   "z" ∉ children_names (self demo.trimmed)).
Proof.
  split.
  - apply (forward_cached_unverified demo.TensorKey demo.call demo.x "c"
             ["x"; "a"; "b"; "c"] [] false demo.trimmed demo.trimmed "").
    compute_done.
  - apply (forward_cached_unverified demo.TensorKey demo.call demo.x "c"
             ["x"; "a"; "b"; "c"] ["c"; "z"] false demo.trimmed demo.trimmed "z").
    compute_done.
Defined.

Lemma deepest_layer_latest_witness :
  (∃ n, n ∈ ["a"; "z"] ∧ (n ∉ children_names demo.encoder) ∧
        @extract_deepest_layer demo.Tensor _ _ string _ _ demo.encoder ["a"; "z"] =
        Raise (UnknownLayerError n)) ∧
  (∃ d, @extract_deepest_layer demo.Tensor _ _ string _ _ demo.encoder ["c"; "a"; "c"] =
        Ok d ∧ d ∈ ["c"; "a"; "c"]) ∧
  @extract_deepest_layer demo.Tensor _ _ string _ _ demo.encoder ["c"; "a"; "c"] = Ok "c".
Proof.
  split_and!.
  - apply (@deepest_layer_latest demo.Tensor _ _ string _ _ demo.encoder ["a"; "z"]).
    exists "z". split; compute_done.
  - destruct (@deepest_layer_latest demo.Tensor _ _ string _ _ demo.encoder
                ["c"; "a"; "c"]) as (_ & Hdeep & _).
    destruct Hdeep as (d & Hd & Hin & _); [compute_done..|]. by exists d.
  - destruct (@deepest_layer_latest demo.Tensor _ _ string _ _ demo.encoder
                ["c"; "a"; "c"]) as (_ & _ & Hexample).
    apply (Hexample ltac:(compute_done) (Some "a") (Some "b") (Some "c")).
    reflexivity.
Defined.

Lemma propagate_guide_through_deepest_witness :
  ∃ d, d ∈ ["b"; "a"] ∧
       match guide_of demo.propagate demo.encoder d ["g"] "simple" false with
       | inl e =>
           propagate_guide demo.propagate demo.encoder ["g"] ["b"; "a"] "simple" false =
           Raise (Raised e)
       | inr _ =>
           ∃ gs, propagate_guide demo.propagate demo.encoder ["g"] ["b"; "a"] "simple" false =
                 Ok gs ∧
                 Forall2 (λ n g, guide_of demo.propagate demo.encoder n ["g"] "simple" false =
                                 inr g) ["b"; "a"] gs
       end.
Proof.
  destruct (propagate_guide_through_deepest demo.propagate demo.encoder ["g"] ["b"; "a"]
              "simple" false) as (d & Hd & _ & Hguides); [compute_done..|].
  by exists d.
Defined.

Lemma cycle_samplers_witness :
  sampler.pull (sampler.Infinite_next {| sampler.data_source := 3; sampler.batch_size := 2 |}) 4 0 =
  (sampler.cyclic_batches 3 2 4, sampler.Live (sampler.cyclic 3 8)) ∧
  sampler.pull
    (sampler.Finite_next {| sampler.base := {| sampler.data_source := 3; sampler.batch_size := 2 |};
                            sampler.num_batches := 2 |}) 4 (2, 0) =
  (sampler.cyclic_batches 3 2 2, sampler.Exhausted).
Proof.
  destruct (cycle_samplers 3 2 2 4) as [Hgeneral _].
  destruct Hgeneral as [Hinfinite Hfinite]; [compute_done|].
  split; [exact Hinfinite|]. apply Hfinite. compute_done.
Defined.

(** C3 as stated fails: after [forward(x, ["c"], store=True)] and
    [trim(["b"])] the stage c is deleted, and [forward(x, ["c", "a"])]
    still returns the tensors from the cache. *)
Lemma trim_then_forward_cached_counterexample :
  @trim demo.Tensor _ _ string _ _ (Some ["b"]) demo.stored = (demo.trimmed, Ok tt) ∧
  children_names (self demo.trimmed) = ["a"; "b"] ∧
  forward demo.TensorKey demo.call demo.x ["c"; "a"] false demo.trimmed =
  (demo.trimmed, Ok [["x"; "a"; "b"; "c"]; ["x"; "a"]]).
Proof. split_and!; vm_compute; reflexivity. Qed.

(** C4 as stated fails: c is not a stage name of the trimmed encoder, and
    [forward(x, ["c"])] returns the cached tensor. *)
Lemma forward_unknown_cached_counterexample :
  children_names (self demo.trimmed) = ["a"; "b"] ∧
  contains (self demo.trimmed) "c" = false ∧
  forward demo.TensorKey demo.call demo.x ["c"] false demo.trimmed =
  (demo.trimmed, Ok [["x"; "a"; "b"; "c"]]).
Proof. split_and!; vm_compute; reflexivity. Qed.

(** C10 as stated fails: the constructor returns a sampler for an empty
    data source. *)
Lemma InfiniteCycleBatchSampler_init_counterexample :
  sampler.len 0 = 0 ∧
  sampler.InfiniteCycleBatchSampler_init 0 1 =
  Some {| sampler.data_source := 0; sampler.batch_size := 1 |}.
Proof. done. Qed.

(** ** The further properties on the small encoder *)


Lemma forward_result_shape_witness :
  length [["x"; "a"; "b"; "c"]; ["x"; "a"]; ["x"; "a"; "b"; "c"]] = length ["c"; "a"; "c"] ∧
  ∀ i j l, ["c"; "a"; "c"] !! i = Some l → ["c"; "a"; "c"] !! j = Some l →
           [["x"; "a"; "b"; "c"]; ["x"; "a"]; ["x"; "a"; "b"; "c"]] !! i =
           [["x"; "a"; "b"; "c"]; ["x"; "a"]; ["x"; "a"; "b"; "c"]] !! j.
Proof.
  apply (forward_result_shape demo.TensorKey demo.call demo.x ["c"; "a"; "c"] false
           demo.fresh (with_called demo.fresh ["a"; "b"; "c"])).
  vm_compute. reflexivity.
Defined.

Lemma forward_store_then_hit_witness :
  forward demo.TensorKey demo.call demo.x ["b"; "c"] false demo.stored =
  (demo.stored, Ok [["x"; "a"; "b"]; ["x"; "a"; "b"; "c"]]).
Proof.
  apply (forward_store_then_hit demo.TensorKey demo.call demo.x ["b"; "c"] false demo.fresh).
  vm_compute. reflexivity.
Defined.

Lemma forward_store_contents_witness :
  (∀ l k, k ≠ demo.TensorKey demo.x →
          _cache (self demo.stored) !! (l, k) = _cache (self demo.fresh) !! (l, k)) ∧
  (∀ l, is_Some (_cache (self demo.fresh) !! (l, demo.TensorKey demo.x)) →
        is_Some (_cache (self demo.stored) !! (l, demo.TensorKey demo.x))) ∧
  (∀ l l', l ∈ ["c"] → _cache (self demo.fresh) !! (l, demo.TensorKey demo.x) = None →
           l' ∈ children_names (self demo.fresh) →
           position (children_names (self demo.fresh)) l' ≤
           position (children_names (self demo.fresh)) l →
           is_Some (activation demo.call (self demo.fresh) l' demo.x) ∧
           _cache (self demo.stored) !! (l', demo.TensorKey demo.x) =
           activation demo.call (self demo.fresh) l' demo.x).
Proof.
  apply (forward_store_contents demo.TensorKey demo.call demo.x ["c"] demo.fresh
           demo.stored [["x"; "a"; "b"; "c"]]).
  - compute_done.
  - vm_compute. reflexivity.
Defined.

Lemma forward_cold_witness :
  ∃ d, d ∈ ["a"; "b"] ∧
       (∀ l, l ∈ ["a"; "b"] → position (children_names (self demo.fresh)) l ≤
                               position (children_names (self demo.fresh)) d) ∧
       match chain demo.call (upto (self demo.fresh) d) demo.x with
       | inr _ =>
           ∃ st' ts,
             forward demo.TensorKey demo.call demo.x ["a"; "b"] true demo.fresh =
             (st', Ok ts) ∧
             called st' = called demo.fresh ++
                          take (S (position (children_names (self demo.fresh)) d))
                               (children_names (self demo.fresh)) ∧
             Forall2 (λ l t, activation demo.call (self demo.fresh) l demo.x = Some t)
                     ["a"; "b"] ts
       | inl ex =>
           ∃ st', forward demo.TensorKey demo.call demo.x ["a"; "b"] true demo.fresh =
                  (st', Raise (Raised ex)) ∧
                  self st' = self demo.fresh
       end.
Proof.
  apply (forward_cold demo.TensorKey demo.call demo.x ["a"; "b"] true demo.fresh);
    compute_done.
Defined.

Lemma SingleLayerEncoder_forward_spec_witness :
  self (SingleLayerEncoder_forward demo.TensorKey demo.call "c" demo.x demo.trimmed).1 =
  self demo.trimmed ∧
  SingleLayerEncoder_forward demo.TensorKey demo.call "c" demo.x demo.trimmed =
  (demo.trimmed, Ok ["x"; "a"; "b"; "c"]).
Proof.
  exact (SingleLayerEncoder_forward_spec demo.TensorKey demo.call "c" demo.x demo.trimmed
           ltac:(compute_done)).
Defined.

Lemma SingleLayerEncoder_propagate_guide_spec_witness :
  SingleLayerEncoder_propagate_guide demo.propagate demo.encoder "b" ["g"] =
  Ok ["g"; "a"; "b"].
Proof.
  exact (SingleLayerEncoder_propagate_guide_spec demo.propagate demo.encoder "b" ["g"]
           ltac:(compute_done)).
Defined.

Lemma extract_deepest_layer_set_witness :
  @extract_deepest_layer demo.Tensor _ _ string _ _ demo.encoder ["b"; "a"; "b"; "a"] =
  Ok "b".
Proof.
  apply (@extract_deepest_layer_set demo.Tensor _ _ string _ _ demo.encoder ["a"; "b"]);
    compute_done.
Defined.

Lemma trim_raises_unchanged_witness :
  @trim demo.Tensor _ _ string _ _ None demo.stored = (demo.stored, Raise IndexError) ∧
  ∃ n, n ∈ ["a"; "z"] ∧ (n ∉ children_names (self demo.stored)) ∧
       @trim demo.Tensor _ _ string _ _ (Some ["a"; "z"]) demo.stored =
       (demo.stored, Raise (UnknownLayerError n)).
Proof.
  split.
  - apply (@trim_raises_unchanged demo.Tensor _ _ string _ _ None demo.stored).
    compute_done.
  - apply (@trim_raises_unchanged demo.Tensor _ _ string _ _ (Some ["a"; "z"]) demo.stored).
    exists "z". split; compute_done.
Defined.

Lemma trim_keeps_activations_witness :
  (∀ l x, l ∈ children_names (self demo.trimmed) →
          activation demo.call (self demo.trimmed) l x =
          activation demo.call (self demo.stored) l x) ∧
  (∀ l guide method allow_empty, l ∈ children_names (self demo.trimmed) →
          guide_of demo.propagate (self demo.trimmed) l guide method allow_empty =
          guide_of demo.propagate (self demo.stored) l guide method allow_empty) ∧
  @trim demo.Tensor _ _ string _ _ (Some ["b"]) demo.trimmed = (demo.trimmed, Ok tt).
Proof.
  apply (trim_keeps_activations demo.call demo.propagate (Some ["b"]) demo.stored
           demo.trimmed).
  - compute_done.
  - vm_compute. reflexivity.
Defined.

Lemma propagate_guide_raises_witness :
  propagate_guide demo.propagate demo.encoder ["g"] [] "simple" false = Raise IndexError ∧
  ∃ n, n ∈ ["b"; "z"] ∧ (n ∉ children_names demo.encoder) ∧
       propagate_guide demo.propagate demo.encoder ["g"] ["b"; "z"] "simple" false =
       Raise (UnknownLayerError n).
Proof.
  split.
  - by apply (propagate_guide_raises demo.propagate demo.encoder ["g"] [] "simple" false).
  - apply (propagate_guide_raises demo.propagate demo.encoder ["g"] ["b"; "z"]
             "simple" false).
    exists "z". split; compute_done.
Defined.

Lemma encode_raises_unchanged_witness :
  self (with_called demo.broken_c ["a"; "bad"]) = self demo.broken_c ∧
  ((∃ m, Raised "stage failed" = UnknownLayerError m ∧
         m ∈ registered_layers (self demo.broken_c) ∧
         (m ∉ children_names (self demo.broken_c)) ∧
         _cache (self demo.broken_c) !! (m, demo.TensorKey demo.x) = None) ∨
   (∃ ex, @Raised string "stage failed" = Raised ex)).
Proof.
  apply (encode_raises_unchanged demo.TensorKey demo.call demo.x demo.broken_c).
  vm_compute. reflexivity.
Defined.

Lemma encode_then_cached_witness :
  encode demo.TensorKey demo.call demo.x demo.encoded = (demo.encoded, Ok tt) ∧
  ∀ l, l ∈ registered_layers (self demo.busy) →
       ∃ t, _cache (self demo.encoded) !! (l, demo.TensorKey demo.x) = Some t ∧
            SingleLayerEncoder_forward demo.TensorKey demo.call l demo.x demo.encoded =
            (demo.encoded, Ok t).
Proof.
  apply (encode_then_cached demo.TensorKey demo.call demo.x demo.busy).
  vm_compute. reflexivity.
Defined.

Lemma run_monotone_witness :
  NoDup (children_names (self demo.later)) ∧
  (∃ n, _modules (self demo.later) = take n (_modules (self demo.fresh))) ∧
  registered_layers (self demo.fresh) ⊆ registered_layers (self demo.later) ∧
  ∃ more, called demo.later = called demo.fresh ++ more.
Proof.
  apply (run_monotone demo.TensorKey demo.call demo.calls demo.fresh).
  compute_done.
Defined.

Lemma forward_returns_activations_witness :
  coherent demo.TensorKey demo.call demo.modules (_cache (self demo.later)) ∧
  Forall2 (λ l t, activation demo.call demo.encoder l demo.x = Some t)
          ["a"; "b"] [["x"; "a"]; ["x"; "a"; "b"]].
Proof.
  destruct (forward_returns_activations demo.TensorKey demo.call demo.modules demo.calls
              demo.x ["a"; "b"] false demo.later [["x"; "a"]; ["x"; "a"; "b"]])
    as [Hcoherent Hactivations].
  - compute_done.
  - intros x y Hxy. exact Hxy.
  - split; [exact Hcoherent|]. apply Hactivations. vm_compute. reflexivity.
Defined.

Lemma registered_layers_are_stages_witness :
  (∀ l, l ∈ registered_layers (self demo.later) → l ∈ children_names (self demo.later)) ∧
  (∀ x st' e, encode demo.TensorKey demo.call x demo.later = (st', Raise e) →
              ∃ ex, e = Raised ex) ∧
  (∀ st' e, @trim demo.Tensor _ _ string _ _ None demo.later = (st', Raise e) →
            e = IndexError ∧ registered_layers (self demo.later) = ∅).
Proof.
  apply (registered_layers_are_stages demo.TensorKey demo.call demo.modules demo.calls).
  - compute_done.
  - repeat constructor.
Defined.

Lemma Infinite_batch_shape_witness :
  Forall (λ batch, length batch = sampler.range_len 2 ∧ Forall (λ i, i < sampler.len 3) batch)
         (sampler.pull
            (sampler.Infinite_next {| sampler.data_source := 3; sampler.batch_size := 2 |}) 4
            (sampler.Infinite_iter {| sampler.data_source := 3; sampler.batch_size := 2 |})).1.
Proof. apply (Infinite_batch_shape 3 2 4). compute_done. Defined.

Lemma Infinite_batches_concat_witness :
  concat (sampler.pull
            (sampler.Infinite_next {| sampler.data_source := 3; sampler.batch_size := 2 |}) 4
            (sampler.Infinite_iter {| sampler.data_source := 3; sampler.batch_size := 2 |})).1 =
  sampler.cyclic (sampler.len 3) <$> seq 0 (4 * sampler.range_len 2).
Proof. apply (Infinite_batches_concat 3 2 4). compute_done. Defined.

Lemma Infinite_batches_periodic_witness :
  (sampler.pull
     (sampler.Infinite_next {| sampler.data_source := 3; sampler.batch_size := 2 |}) 5
     (sampler.Infinite_iter {| sampler.data_source := 3; sampler.batch_size := 2 |})).1
    !! (1 + sampler.len 3) =
  (sampler.pull
     (sampler.Infinite_next {| sampler.data_source := 3; sampler.batch_size := 2 |}) 5
     (sampler.Infinite_iter {| sampler.data_source := 3; sampler.batch_size := 2 |})).1
    !! 1 ∧
  is_Some
    ((sampler.pull
        (sampler.Infinite_next {| sampler.data_source := 3; sampler.batch_size := 2 |}) 5
        (sampler.Infinite_iter {| sampler.data_source := 3; sampler.batch_size := 2 |})).1
       !! 1).
Proof. apply (Infinite_batches_periodic 3 2 5 1); compute_done. Defined.

Lemma Finite_cuts_Infinite_witness :
  (sampler.pull
     (sampler.Finite_next
        {| sampler.base := {| sampler.data_source := 3; sampler.batch_size := 2 |};
           sampler.num_batches := 2 |}) 4
     (sampler.Finite_iter
        {| sampler.base := {| sampler.data_source := 3; sampler.batch_size := 2 |};
           sampler.num_batches := 2 |})).1 =
  take (sampler.range_len 2)
    (sampler.pull
       (sampler.Infinite_next {| sampler.data_source := 3; sampler.batch_size := 2 |}) 4
       (sampler.Infinite_iter {| sampler.data_source := 3; sampler.batch_size := 2 |})).1 ∧
  ((sampler.pull
      (sampler.Finite_next
         {| sampler.base := {| sampler.data_source := 3; sampler.batch_size := 2 |};
            sampler.num_batches := 2 |}) 4
      (sampler.Finite_iter
         {| sampler.base := {| sampler.data_source := 3; sampler.batch_size := 2 |};
            sampler.num_batches := 2 |})).2 = sampler.Exhausted ↔
   sampler.range_len 2 < 4).
Proof. apply (Finite_cuts_Infinite 3 2 2 4). compute_done. Defined.

Lemma nonpositive_counts_witness :
  sampler.pull
    (sampler.Infinite_next {| sampler.data_source := 0; sampler.batch_size := 0 |}) 3 0 =
  (replicate 3 [], sampler.Live 0) ∧
  sampler.pull
    (sampler.Finite_next
       {| sampler.base := {| sampler.data_source := 0; sampler.batch_size := 0 |};
          sampler.num_batches := -1 |}) 3
    (sampler.Finite_iter
       {| sampler.base := {| sampler.data_source := 0; sampler.batch_size := 0 |};
          sampler.num_batches := -1 |}) =
  ([], sampler.Exhausted).
Proof.
  destruct (nonpositive_counts 0 0 (-1) 3 0) as [Hbatch _].
  destruct (nonpositive_counts 0 0 (-1) 2 0) as [_ Hfinite].
  split; [apply Hbatch|apply Hfinite]; compute_done.
Defined.
